(** * stream.hpp: chainable stream adapters over in-memory containers

    A shallow embedding of [src/stream.hpp].  A [Stream<TCollection>] holds
    two [const_iterator]s into a container.  An iterator is embedded as a
    position in the traversal ([begin() .. end()]) of the container it points
    into, and the container itself is carried along so that [*iter] can be
    read.  Reading a position that holds no element has no defined result in
    C++; this is made explicit by the [Undefined] outcome. *)

From Equations Require Import Equations.
From stdpp Require Import base option list sorting gmap.
From Stdlib Require Import ZArith Lia.

Set Default Proof Using "Type*".
Local Open Scope nat_scope.

(** ** Outcomes *)

(** [Done a]: the call returns [a].  [Undefined]: the call dereferences an
    iterator that designates no element (undefined behaviour). *)
Inductive outcome (A : Type) : Type :=
| Done (a : A)
| Undefined.
Arguments Done {A} a.
Arguments Undefined {A}.

#[global] Instance outcome_ret : MRet outcome := fun _ a => Done a.
#[global] Instance outcome_bind : MBind outcome := fun _ _ k m =>
  match m with
  | Done a => k a
  | Undefined => Undefined
  end.

Definition inspect {A : Type} (a : A) : {b : A | a = b} := exist _ a eq_refl.

(** ** Containers *)

(** [std::vector<T>]: its traversal is the list of its elements. *)
Abbreviation vector := list (only parsing).

(** [operator<] on the element type, as [std::set<T>] uses it through
    [std::less<T>]. *)
Class Less (T : Type) := less : T → T → bool.

#[global] Instance Z_less : Less Z := Z.ltb.
#[global] Instance nat_less : Less nat := Nat.ltb.

(** [std::set<T>], represented by its traversal, which is in key order. *)
Record std_set (T : Type) : Type := StdSet { set_items : list T }.
Arguments StdSet {T} set_items.
Arguments set_items {T} s.

(** [std::set<T>::insert] seen on the traversal: the value goes in front of
    the first greater element, and is dropped when an equivalent element
    (neither less nor greater) is already there. *)
Fixpoint set_insert {T : Type} `{Less T} (value : T) (items : list T) : list T :=
  match items with
  | [] => [value]
  | y :: rest =>
      if less value y then value :: y :: rest
      else if less y value then y :: set_insert value rest
      else y :: rest
  end.

(** [std::unordered_set<T>] as a set value, which is what its
    [operator==] compares.  [elements] lists the value in an order of its
    own, not in the order in which the container is iterated: that order
    depends on how the container was filled, and is the subject of
    [hashtable] below. *)
Abbreviation unordered_set := gset (only parsing).

(** The [Collection<TCollection>] trait.  [V] is [Collection::Value];
    [construct] is the default constructor ([RCollection result;]);
    [traversal] lists the elements from [begin()] to [end()]. *)
Class Collection (TCollection V : Type) := {
  construct : TCollection;
  insert : TCollection → V → TCollection;
  traversal : TCollection → list V;
}.
Arguments construct TCollection {V _}.

(** Primary template: [collection.emplace_back(value)]. *)
#[global] Instance vector_Collection (T : Type) : Collection (vector T) T := {|
  construct := [];
  insert collection value := collection ++ [value];
  traversal collection := collection;
|}.

(** [Collection<std::unordered_set<T>>]: [collection.insert(value)]. *)
#[global] Instance unordered_set_Collection (T : Type) `{Countable T} :
  Collection (unordered_set T) T := {|
  construct := ∅;
  insert collection value := {[ value ]} ∪ collection;
  traversal collection := elements collection;
|}.

(** [Collection<std::set<T>>]: [collection.insert(value)]. *)
#[global] Instance std_set_Collection (T : Type) `{Less T} :
  Collection (std_set T) T := {|
  construct := StdSet [];
  insert collection value := StdSet (set_insert value (set_items collection));
  traversal collection := set_items collection;
|}.

(** [Collection<TCollection>::WithValueType<R>]: the container kind of
    [TCollection] with element type [R], together with the [Collection]
    entry of that container. *)
Class WithValueType (TCollection R : Type) := {
  RCollection : Type;
  RCollection_Collection :: Collection RCollection R;
}.
Arguments RCollection TCollection R {_}.

#[global] Instance vector_WithValueType (T R : Type) :
  WithValueType (vector T) R := {|
  RCollection := vector R;
  RCollection_Collection := vector_Collection R;
|}.

#[global] Instance unordered_set_WithValueType (T R : Type)
  `{Countable T} `{Countable R} :
  WithValueType (unordered_set T) R := {|
  RCollection := unordered_set R;
  RCollection_Collection := unordered_set_Collection R;
|}.

#[global] Instance std_set_WithValueType (T R : Type) `{Less R} :
  WithValueType (std_set T) R := {|
  RCollection := std_set R;
  RCollection_Collection := std_set_Collection R;
|}.

(** ** Streams *)

(** [class Stream]: the iterators [begin] and [end], as positions in the
    traversal of [storage], the container they point into. *)
Record Stream (TCollection : Type) : Type := MkStream {
  storage : TCollection;
  begin : nat;
  end_ : nat;
}.
Arguments MkStream {TCollection} storage begin end_.
Arguments storage {TCollection} s.
Arguments begin {TCollection} s.
Arguments end_ {TCollection} s.

(** ** The loop [for (auto iter = begin; iter != end; ++iter)] *)

Section loops.
Context {V : Type}.
(** The traversal of the container the iterators point into. *)
Variable mem : list V.
(** The [end] iterator of the loop. *)
Variable last : nat.

(** A loop whose body updates an accumulator from [*iter]:
    [for (; iter != end; ++iter) { acc = body(acc, *iter); }]. *)
Equations? fold_loop {A : Type} (body : A → V → A) (it : nat) (acc : A) :
  outcome A by wf (length mem - it) lt :=
  fold_loop body it acc with inspect (it =? last) => {
    | exist _ true _ := Done acc;
    | exist _ false _ with inspect (mem !! it) => {
        | exist _ None _ := Undefined;
        | exist _ (Some x) Hx := fold_loop body (S it) (body acc x) } }.
Proof. apply lookup_lt_Some in Hx. lia. Qed.

(** A loop that leaves at the first element on which [stop] holds:
    [for (; iter != end; ++iter) { if (stop( *iter )) return ... iter ...; }].
    The result is the iterator at which the loop was left, or [None] when
    the loop ran to [end]. *)
Equations? scan_loop (stop : V → bool) (it : nat) :
  outcome (option nat) by wf (length mem - it) lt :=
  scan_loop stop it with inspect (it =? last) => {
    | exist _ true _ := Done None;
    | exist _ false _ with inspect (mem !! it) => {
        | exist _ None _ := Undefined;
        | exist _ (Some x) Hx with stop x => {
            | true := Done (Some it);
            | false := scan_loop stop (S it) } } }.
Proof. apply lookup_lt_Some in Hx. lia. Qed.
End loops.

(** [for (usize i = 0; i < count && iter != end; ++i) { ++iter; }], by
    recursion on the number [count - i] of rounds left; the result is the
    final [iter].  The counter [i] stays below [count], so it never wraps. *)
Fixpoint advance (count : nat) (it last : nat) : nat :=
  match count with
  | O => it
  | S count' => if it =? last then it else advance count' (S it) last
  end.

(** ** Stream stages *)

(** [explicit Stream(TCollection& collection)]: [begin(collection.begin())],
    [end(collection.end())]. *)
Definition Stream_from `{Collection TCollection V} (collection : TCollection) :
  Stream TCollection :=
  MkStream collection 0 (length (traversal collection)).

(** [Map::map]: [Collection<RCollection>::insert(mapped, mapper( *iter ))] for
    every position of the range, into a default-constructed [RCollection],
    where [RCollection] is [Collection<TCollection>::WithValueType<R>]. *)
Definition Map_map `{Collection TCollection V} `{WithValueType TCollection R}
  (mapper : V → R) (src : TCollection) (begin end_ : nat) :
  outcome (RCollection TCollection R) :=
  fold_loop (traversal src) end_
    (fun mapped x => insert mapped (mapper x))
    begin (construct (RCollection TCollection R)).

(** [Map::Map]: the stream over the whole of [mapped]. *)
Definition Map `{Collection TCollection V} `{WithValueType TCollection R}
  (mapper : V → R) (src : TCollection) (begin end_ : nat) :
  outcome (Stream (RCollection TCollection R)) :=
  mapped ← Map_map mapper src begin end_;
  mret (MkStream mapped 0 (length (traversal mapped))).

(** [Filter::filter]:
    [if (predicate( *iter )) { Collection<TCollection>::insert(filtered, *iter); }]. *)
Definition Filter_filter `{Collection TCollection V}
  (predicate : V → bool) (src : TCollection) (begin end_ : nat) :
  outcome TCollection :=
  fold_loop (traversal src) end_
    (fun filtered x => if predicate x then insert filtered x else filtered)
    begin (construct TCollection).

(** [Filter::Filter]: the stream over the whole of [filtered]. *)
Definition Filter `{Collection TCollection V}
  (predicate : V → bool) (src : TCollection) (begin end_ : nat) :
  outcome (Stream TCollection) :=
  filtered ← Filter_filter predicate src begin end_;
  mret (MkStream filtered 0 (length (traversal filtered))).

(** [Take::Take]: [this->begin = begin], [this->end] is [begin] advanced at
    most [count] times. *)
Definition Take {TCollection : Type}
  (count : nat) (src : TCollection) (begin end_ : nat) : Stream TCollection :=
  MkStream src begin (advance count begin end_).

(** [TakeWhile::TakeWhile]: [this->end] is the first position whose element
    fails [predicate], or [end]. *)
Definition TakeWhile `{Collection TCollection V}
  (predicate : V → bool) (src : TCollection) (begin end_ : nat) :
  outcome (Stream TCollection) :=
  left_at ← scan_loop (traversal src) end_ (fun x => negb (predicate x)) begin;
  mret (MkStream src begin (default end_ left_at)).

(** [Skip::Skip]: [this->end = end], [this->begin] is [begin] advanced at
    most [count] times. *)
Definition Skip {TCollection : Type}
  (count : nat) (src : TCollection) (begin end_ : nat) : Stream TCollection :=
  MkStream src (advance count begin end_) end_.

(** [SkipWhile::SkipWhile]: [this->begin] is the first position whose element
    fails [predicate], or [end]. *)
Definition SkipWhile `{Collection TCollection V}
  (predicate : V → bool) (src : TCollection) (begin end_ : nat) :
  outcome (Stream TCollection) :=
  left_at ← scan_loop (traversal src) end_ (fun x => negb (predicate x)) begin;
  mret (MkStream src (default end_ left_at) end_).

(** ** The methods of [Stream] *)

Definition map `{Collection TCollection V} `{WithValueType TCollection R}
  (mapper : V → R) (s : Stream TCollection) :
  outcome (Stream (RCollection TCollection R)) :=
  Map mapper (storage s) (begin s) (end_ s).

Definition filter `{Collection TCollection V}
  (predicate : V → bool) (s : Stream TCollection) : outcome (Stream TCollection) :=
  Filter predicate (storage s) (begin s) (end_ s).

Definition take {TCollection : Type} (count : nat) (s : Stream TCollection) :
  Stream TCollection :=
  Take count (storage s) (begin s) (end_ s).

Definition takeWhile `{Collection TCollection V}
  (predicate : V → bool) (s : Stream TCollection) : outcome (Stream TCollection) :=
  TakeWhile predicate (storage s) (begin s) (end_ s).

Definition skip {TCollection : Type} (count : nat) (s : Stream TCollection) :
  Stream TCollection :=
  Skip count (storage s) (begin s) (end_ s).

Definition skipWhile `{Collection TCollection V}
  (predicate : V → bool) (s : Stream TCollection) : outcome (Stream TCollection) :=
  SkipWhile predicate (storage s) (begin s) (end_ s).

(** [Value reduce(FReducer reducer)]: [Value acc = *iter++;] reads the
    element at [begin] whether or not [begin] is [end], and the loop then
    starts one position further. *)
Definition reduce `{Collection TCollection V}
  (reducer : V → V → V) (s : Stream TCollection) : outcome V :=
  match traversal (storage s) !! begin s with
  | None => Undefined
  | Some acc =>
      fold_loop (traversal (storage s)) (end_ s) reducer (S (begin s)) acc
  end.

(** [R reduce(R init, FReducer reducer)]. *)
Definition reduce_init `{Collection TCollection V} {R : Type}
  (init : R) (reducer : R → V → R) (s : Stream TCollection) : outcome R :=
  fold_loop (traversal (storage s)) (end_ s) reducer (begin s) init.

(** [bool any(FPredicate predicate)]: [return true] at the first element
    that satisfies [predicate], [return false] after the loop. *)
Definition any `{Collection TCollection V}
  (predicate : V → bool) (s : Stream TCollection) : outcome bool :=
  left_at ← scan_loop (traversal (storage s)) (end_ s) predicate (begin s);
  mret (if left_at is Some _ then true else false).

(** [bool all(FPredicate predicate)]: [return false] at the first element
    that fails [predicate], [return true] after the loop. *)
Definition all `{Collection TCollection V}
  (predicate : V → bool) (s : Stream TCollection) : outcome bool :=
  left_at ← scan_loop (traversal (storage s)) (end_ s)
              (fun x => negb (predicate x)) (begin s);
  mret (if left_at is Some _ then false else true).

(** [RCollection collect()]: [Collection<RCollection>::insert(result, *iter)]
    for every position of the range. *)
Definition collect `{Collection TCollection V} (RCollection : Type)
  `{Collection RCollection V} (s : Stream TCollection) : outcome RCollection :=
  fold_loop (traversal (storage s)) (end_ s) insert (begin s)
    (construct RCollection).

(** ** Ranges *)

(** The invariant of a Sequence View: [end] is reachable from [begin], and
    both are positions of the storage (its end included). *)
Definition valid `{Collection TCollection V} (s : Stream TCollection) : Prop :=
  begin s ≤ end_ s ∧ end_ s ≤ length (traversal (storage s)).

(** The elements of the half-open range [[begin, end)], in order. *)
Definition range `{Collection TCollection V} (s : Stream TCollection) : list V :=
  firstn (end_ s - begin s) (skipn (begin s) (traversal (storage s))).

(** The longest prefix of a list whose elements all satisfy [p], and what
    is left of the list after it. *)
Fixpoint while_prefix {V : Type} (p : V → bool) (l : list V) : list V :=
  match l with
  | [] => []
  | x :: l' => if p x then x :: while_prefix p l' else []
  end.

Fixpoint while_rest {V : Type} (p : V → bool) (l : list V) : list V :=
  match l with
  | [] => []
  | x :: l' => if p x then while_rest p l' else x :: l'
  end.

(** The position of the first element of a list on which [stop] holds. *)
Fixpoint first_index {V : Type} (stop : V → bool) (l : list V) : option nat :=
  match l with
  | [] => None
  | x :: l' => if stop x then Some 0 else S <$> first_index stop l'
  end.

(** The number of elements of a list that satisfy [p]. *)
Fixpoint count_if {V : Type} (p : V → bool) (l : list V) : nat :=
  match l with
  | [] => 0
  | x :: l' => if p x then S (count_if p l') else count_if p l'
  end.

(** [operator<] is a strict total order: equivalent keys are equal. *)
Class StrictTotalLess (T : Type) `{Less T} : Prop := {
  less_irreflexive : ∀ x : T, less x x = false;
  less_transitive : ∀ x y z : T, less x y = true → less y z = true → less x z = true;
  less_connected : ∀ x y : T, less x y = false → less y x = false → x = y;
}.

(** A traversal in key order: every element is less than all later ones. *)
Definition in_key_order {T : Type} `{Less T} (items : list T) : Prop :=
  StronglySorted (fun x y => less x y = true) items.

(** [out] holds exactly the elements of [S] that satisfy [p], in the same
    relative order, and as many of them as [S] has. *)
Definition keeps_matching {V : Type} (p : V → bool) (S out : list V) : Prop :=
  out = List.filter p S ∧
  Forall (fun x => p x = true) out ∧
  out `sublist_of` S ∧
  (∀ x : V, x ∈ out ↔ x ∈ S ∧ p x = true) ∧
  length out = count_if p S.

(** Streams used as concrete inputs. *)
Definition one_to_ten : vector Z := [1; 2; 3; 4; 5; 6; 7; 8; 9; 10]%Z.
Definition sample_source : Stream (vector Z) :=
  Stream_from [3; 1; 4; 1; 5; 9; 2; 6]%Z.
Definition sample_window : Stream (vector Z) := take 4 (skip 2 sample_source).
Definition sample_empty : Stream (vector Z) := take 0 sample_source.
Definition sample_set : Stream (std_set Z) := Stream_from (StdSet [1; 2; 3]%Z).

(** [using usize = std::size_t]: 64 bits wide; [index++] wraps around. *)
Definition usize_bits : Z := 64.
Definition usize_incr (index : Z) : Z := ((index + 1) mod 2 ^ usize_bits)%Z.

(** [void forEach(FConsumer consumer)]: [consumer( *iter )] for every
    position of the range.  The consumer returns nothing and acts on what it
    captured; that state is threaded through the calls as [St]. *)
Definition forEach `{Collection TCollection V} {St : Type}
  (consumer : St → V → St) (s : Stream TCollection) (st : St) : outcome St :=
  fold_loop (traversal (storage s)) (end_ s) consumer (begin s) st.

(** [void forEachIndexed(FConsumer consumer)]: [usize index = 0;] and
    [consumer(index++, *iter)] for every position of the range. *)
Definition forEachIndexed `{Collection TCollection V} {St : Type}
  (consumer : St → Z → V → St) (s : Stream TCollection) (st : St) : outcome St :=
  final ← fold_loop (traversal (storage s)) (end_ s)
            (fun acc x => (usize_incr acc.1, consumer acc.2 acc.1 x))
            (begin s) (0%Z, st);
  mret final.2.

(** The insertion of a [Collection] entry adds the value to the elements
    the container holds and removes none; a default-constructed container
    holds nothing. *)
Class CollectionLaws (TCollection V : Type) `{Collection TCollection V} : Prop := {
  traversal_construct : traversal (construct TCollection) = [];
  elem_of_traversal_insert :
    ∀ (collection : TCollection) (value y : V),
      y ∈ traversal (insert collection value) ↔
      y = value ∨ y ∈ traversal collection;
}.

(** Further streams used as concrete inputs. *)
Definition sample_unordered : Stream (unordered_set Z) :=
  Stream_from ({[ 2; 7; 1 ]}%Z : gset Z).
Definition sample_duplicates : Stream (vector Z) :=
  Stream_from [2; 1; 2; 3; 1]%Z.

(** [s'] is a view into the storage of [s] that lies inside the view [s]. *)
Definition narrows `{Collection TCollection V} (s' s : Stream TCollection) : Prop :=
  storage s' = storage s ∧ begin s ≤ begin s' ∧ end_ s' ≤ end_ s ∧ valid s'.

(** ** [std::unordered_set] as a node list *)

(** [std::hash<T>]: a [size_t]. *)
Class Hash (T : Type) := hash : T → N.

(** [std::hash<int>]: [static_cast<size_t>(value)]. *)
#[global] Instance Z_Hash : Hash Z := fun value => Z.to_N (value mod 2 ^ 64).

(** [std::__detail::__prime_list] (64-bit [unsigned long]); the last entry
    is a sentinel. *)
Definition prime_list : list N :=
  [
    2; 3; 5; 7; 11;
    13; 17; 19; 23; 29;
    31; 37; 41; 43; 47;
    53; 59; 61; 67; 71;
    73; 79; 83; 89; 97;
    103; 109; 113; 127; 137;
    139; 149; 157; 167; 179;
    193; 199; 211; 227; 241;
    257; 277; 293; 313; 337;
    359; 383; 409; 439; 467;
    503; 541; 577; 619; 661;
    709; 761; 823; 887; 953;
    1031; 1109; 1193; 1289; 1381;
    1493; 1613; 1741; 1879; 2029;
    2179; 2357; 2549; 2753; 2971;
    3209; 3469; 3739; 4027; 4349;
    4703; 5087; 5503; 5953; 6427;
    6949; 7517; 8123; 8783; 9497;
    10273; 11113; 12011; 12983; 14033;
    15173; 16411; 17749; 19183; 20753;
    22447; 24281; 26267; 28411; 30727;
    33223; 35933; 38873; 42043; 45481;
    49201; 53201; 57557; 62233; 67307;
    72817; 78779; 85229; 92203; 99733;
    107897; 116731; 126271; 136607; 147793;
    159871; 172933; 187091; 202409; 218971;
    236897; 256279; 277261; 299951; 324503;
    351061; 379787; 410857; 444487; 480881;
    520241; 562841; 608903; 658753; 712697;
    771049; 834181; 902483; 976369; 1056323;
    1142821; 1236397; 1337629; 1447153; 1565659;
    1693859; 1832561; 1982627; 2144977; 2320627;
    2510653; 2716249; 2938679; 3179303; 3439651;
    3721303; 4026031; 4355707; 4712381; 5098259;
    5515729; 5967347; 6456007; 6984629; 7556579;
    8175383; 8844859; 9569143; 10352717; 11200489;
    12117689; 13109983; 14183539; 15345007; 16601593;
    17961079; 19431899; 21023161; 22744717; 24607243;
    26622317; 28802401; 31160981; 33712729; 36473443;
    39460231; 42691603; 46187573; 49969847; 54061849;
    58488943; 63278561; 68460391; 74066549; 80131819;
    86693767; 93793069; 101473717; 109783337; 118773397;
    128499677; 139022417; 150406843; 162723577; 176048909;
    190465427; 206062531; 222936881; 241193053; 260944219;
    282312799; 305431229; 330442829; 357502601; 386778277;
    418451333; 452718089; 489790921; 529899637; 573292817;
    620239453; 671030513; 725980837; 785430967; 849749479;
    919334987; 994618837; 1076067617; 1164186217; 1259520799;
    1362662261; 1474249943; 1594975441; 1725587117; 1866894511;
    2019773507; 2185171673; 2364114217; 2557710269; 2767159799;
    2993761039; 3238918481; 3504151727; 3791104843; 4101556399;
    4294967291; 6442450933; 8589934583; 12884901857; 17179869143;
    25769803693; 34359738337; 51539607367; 68719476731; 103079215087;
    137438953447; 206158430123; 274877906899; 412316860387; 549755813881;
    824633720731; 1099511627689; 1649267441579; 2199023255531; 3298534883309;
    4398046511093; 6597069766607; 8796093022151; 13194139533241; 17592186044399;
    26388279066581; 35184372088777; 52776558133177; 70368744177643; 105553116266399;
    140737488355213; 211106232532861; 281474976710597; 562949953421231; 1125899906842597;
    2251799813685119; 4503599627370449; 9007199254740881; 18014398509481951; 36028797018963913;
    72057594037927931; 144115188075855859; 288230376151711717; 576460752303423433; 1152921504606846883;
    2305843009213693951; 4611686018427387847; 9223372036854775783; 18446744073709551557; 18446744073709551557
  ]%N.

(** [__fast_bkt] of [_Prime_rehash_policy::_M_next_bkt]. *)
Definition fast_bkt : list N :=
  [2; 2; 2; 3; 5; 5; 7; 7; 11; 11; 11; 11; 13; 13]%N.

(** [_Prime_rehash_policy::_M_next_bkt(n)] with the default
    [max_load_factor] of 1: the bucket count to use for [n], and the value
    it leaves in [_M_next_resize].  Below [sizeof(__fast_bkt)] the count is
    read from [__fast_bkt]; otherwise it is the [std::lower_bound] of [n]
    in [[__prime_list + 6, __last_prime)], and the last prime when there
    is none. *)
Definition next_bkt (n resize : N) : N * N :=
  if (n <? 14)%N then
    if (n =? 0)%N then (1%N, resize)
    else let b := nth (N.to_nat n) fast_bkt 0%N in (b, b)
  else
    match List.find (fun q => (n <=? q)%N) (skipn 6 (firstn 303 prime_list)) with
    | Some q => (q, q)
    | None => (nth 303 prime_list 0%N, (2 ^ 64 - 1)%N)
    end.

(** [_Prime_rehash_policy::_M_need_rehash(n_bkt, n_elt, n_ins)] with the
    default [max_load_factor] of 1: the new bucket count when the table
    must grow, and the value left in [_M_next_resize]. *)
Definition need_rehash (n_bkt n_elt n_ins resize : N) : option N * N :=
  if (resize <? n_elt + n_ins)%N then
    let min_bkts :=
      N.max (n_elt + n_ins) (if (resize =? 0)%N then 11 else 0)%N in
    if (n_bkt <=? min_bkts)%N then
      let grown := next_bkt (N.max (min_bkts + 1) (n_bkt * 2)) resize in
      (Some grown.1, grown.2)
    else (None, n_bkt)
  else (None, resize).

(** [std::unordered_set<T>] as libstdc++ lays it out ([_Hashtable] with
    unique keys): [_M_bucket_count], the [_M_next_resize] of its rehash
    policy, and the singly linked list of its nodes, from [begin()] to
    [end()].  The nodes of one bucket are next to each other in the list. *)
Record hashtable (T : Type) : Type := Hashtable {
  bucket_count : N;
  next_resize : N;
  nodes : list T;
}.
Arguments Hashtable {T} bucket_count next_resize nodes.
Arguments bucket_count {T} h.
Arguments next_resize {T} h.
Arguments nodes {T} h.

(** [_M_bucket_index]: the hash code modulo the bucket count. *)
Definition bucket_index {T : Type} `{Hash T} (n : N) (value : T) : N :=
  (hash value mod n)%N.

(** Linking [node] in after the node that precedes the first node of a
    bucket, that is in front of the first node of the list that lies in the
    bucket. *)
Fixpoint link_before {T : Type} (in_bucket : T → bool) (node : T) (l : list T) :
  list T :=
  match l with
  | [] => [node]
  | y :: l' =>
      if in_bucket y then node :: y :: l'
      else y :: link_before in_bucket node l'
  end.

(** [_M_insert_bucket_begin]: into a bucket that has nodes the new node goes
    at the beginning of the bucket; into an empty bucket it goes at the
    beginning of the whole list. *)
Definition insert_bucket_begin {T : Type} `{Hash T}
  (n : N) (node : T) (l : list T) : list T :=
  let in_bucket y := (bucket_index n y =? bucket_index n node)%N in
  if existsb in_bucket l then link_before in_bucket node l else node :: l.

(** [_M_rehash_aux] for unique keys: the nodes are taken in list order and
    each is linked into the new bucket array as [_M_insert_bucket_begin]
    would link it. *)
Definition rehash_aux {T : Type} `{Hash T} (n : N) (l : list T) : list T :=
  foldl (fun relinked p => insert_bucket_begin n p relinked) [] l.

(** [std::unordered_set<T>::insert(value)] ([_M_insert_unique] and
    [_M_insert_unique_node]): nothing happens when the key is found;
    otherwise the table grows if the policy asks for it, and the node is
    linked in at the beginning of its bucket. *)
Definition hashtable_insert {T : Type} `{Hash T} `{EqDecision T}
  (h : hashtable T) (value : T) : hashtable T :=
  if bool_decide (value ∈ nodes h) then h
  else
    let policy :=
      need_rehash (bucket_count h) (N.of_nat (length (nodes h))) 1
        (next_resize h) in
    match policy.1 with
    | Some n =>
        Hashtable n policy.2
          (insert_bucket_begin n value (rehash_aux n (nodes h)))
    | None =>
        Hashtable (bucket_count h) policy.2
          (insert_bucket_begin (bucket_count h) value (nodes h))
    end.

(** [Collection<std::unordered_set<T>>] over the node list: a
    default-constructed table has the single bucket and no node. *)
#[global] Instance hashtable_Collection (T : Type) `{Hash T} `{EqDecision T} :
  Collection (hashtable T) T := {|
  construct := Hashtable 1 0 [];
  insert := hashtable_insert;
  traversal := nodes;
|}.

#[global] Instance hashtable_WithValueType (T R : Type)
  `{Hash R} `{EqDecision R} :
  WithValueType (hashtable T) R := {|
  RCollection := hashtable R;
  RCollection_Collection := hashtable_Collection R;
|}.

(** [std::unordered_set<int>{2, 7, 1}]: the constructor inserts the values
    of the list, in list order, into an empty table. *)
Definition sample_hashed : Stream (hashtable Z) :=
  Stream_from (foldl insert (construct (hashtable Z)) [2; 7; 1]%Z).

(** ** Examples *)

Example fold_loop_ex : fold_loop [1; 2; 3] 3 Nat.add 0 0 = Done 6.
Proof. reflexivity. Qed.
Example scan_loop_ex : scan_loop [1; 2; 3] 3 (Nat.eqb 2) 0 = Done (Some 1).
Proof. reflexivity. Qed.
Example reduce_ex : reduce Z.add (Stream_from [1; 2; 3; 4]%Z) = Done 10%Z.
Proof. reflexivity. Qed.
Example reduce_empty_ex : reduce Z.add (Stream_from (@nil Z)) = Undefined.
Proof. reflexivity. Qed.
Example reduce_take0_ex : reduce Z.add (take 0 (Stream_from [1; 2; 3; 4]%Z)) = Undefined.
Proof. reflexivity. Qed.

(** ** The loops on a valid range *)

Section loop_facts.
Context {V : Type} (mem : list V) (last : nat).

Lemma fold_loop_step {A : Type} (body : A → V → A) (it : nat) (acc : A) :
  fold_loop mem last body it acc =
  if it =? last then Done acc
  else match mem !! it with
       | None => Undefined
       | Some x => fold_loop mem last body (S it) (body acc x)
       end.
Proof.
  funelim (fold_loop mem last body it acc).
  - by rewrite e.
  - by rewrite e, Hx.
  - by rewrite e0, e.
Qed.

Lemma scan_loop_step (stop : V → bool) (it : nat) :
  scan_loop mem last stop it =
  if it =? last then Done None
  else match mem !! it with
       | None => Undefined
       | Some x => if stop x then Done (Some it) else scan_loop mem last stop (S it)
       end.
Proof.
  funelim (scan_loop mem last stop it).
  all: repeat match goal with
       | E : _ = true |- _ => rewrite E
       | E : _ = false |- _ => rewrite E
       | E : _ !! _ = _ |- _ => rewrite E
       end; done.
Qed.

(** On a range inside the storage the accumulating loop is a left fold. *)
Lemma fold_loop_range {A : Type} (body : A → V → A) (n : nat) :
  ∀ (it : nat) (acc : A),
    it + n = last → last ≤ length mem →
    fold_loop mem last body it acc = Done (foldl body acc (firstn n (skipn it mem))).
Proof.
  induction n as [|n IH]; intros it acc Hn Hlast; rewrite fold_loop_step.
  - replace (it =? last) with true by (symmetry; apply Nat.eqb_eq; lia). done.
  - replace (it =? last) with false by (symmetry; apply Nat.eqb_neq; lia).
    destruct (lookup_lt_is_Some_2 mem it) as [x Hx]; [lia|].
    rewrite Hx, (drop_S _ _ _ Hx). simpl. apply IH; lia.
Qed.

(** Once the iterator is past [end] the loop cannot stop: it runs off the
    storage. *)
Lemma fold_loop_past {A : Type} (body : A → V → A) (k : nat) :
  ∀ (it : nat) (acc : A),
    length mem - it = k → last < it →
    fold_loop mem last body it acc = Undefined.
Proof.
  induction k as [|k IH]; intros it acc Hk Hlt; rewrite fold_loop_step;
    replace (it =? last) with false by (symmetry; apply Nat.eqb_neq; lia).
  - rewrite lookup_ge_None_2 by lia. done.
  - destruct (mem !! it) as [x|]; [|done]. apply IH; lia.
Qed.

Lemma scan_loop_range (stop : V → bool) (n : nat) :
  ∀ it : nat,
    it + n = last → last ≤ length mem →
    scan_loop mem last stop it =
    Done (Nat.add it <$> first_index stop (firstn n (skipn it mem))).
Proof.
  induction n as [|n IH]; intros it Hn Hlast; rewrite scan_loop_step.
  - replace (it =? last) with true by (symmetry; apply Nat.eqb_eq; lia). done.
  - replace (it =? last) with false by (symmetry; apply Nat.eqb_neq; lia).
    destruct (lookup_lt_is_Some_2 mem it) as [x Hx]; [lia|].
    rewrite Hx, (drop_S _ _ _ Hx). simpl. destruct (stop x); simpl.
    + by rewrite Nat.add_0_r.
    + rewrite IH by lia. f_equal.
      destruct (first_index stop _); simpl; [f_equal; lia | done].
Qed.
End loop_facts.

Lemma advance_min (count : nat) :
  ∀ it last : nat, it ≤ last → advance count it last = it + Nat.min count (last - it).
Proof.
  induction count as [|count IH]; intros it last Hle; cbn [advance]; [lia|].
  destruct (Nat.eqb_spec it last) as [->|Hne].
  - rewrite Nat.sub_diag. lia.
  - rewrite IH by lia. lia.
Qed.

(** ** Facts on the list functions used in the statements *)

Section list_facts.
Context {V : Type} (p : V → bool).

Lemma while_prefix_rest (l : list V) : while_prefix p l ++ while_rest p l = l.
Proof. induction l as [|x l IH]; simpl; [done|]. destruct (p x); simpl; congruence. Qed.

Lemma while_prefix_Forall (l : list V) :
  Forall (fun x => p x = true) (while_prefix p l).
Proof.
  induction l as [|x l IH]; simpl; [constructor|].
  destruct (p x) eqn:Hx; constructor; done.
Qed.

Lemma while_prefix_longest (l : list V) :
  ∀ l' : list V,
    l' `prefix_of` l → Forall (fun x => p x = true) l' →
    l' `prefix_of` while_prefix p l.
Proof.
  induction l as [|x l IH]; intros l' Hpre Hall.
  - apply prefix_nil_inv in Hpre as ->. done.
  - destruct l' as [|y l']; [apply prefix_nil|].
    apply prefix_cons_inv_1 in Hpre as Hy. subst y.
    apply prefix_cons_inv_2 in Hpre.
    apply Forall_cons in Hall as [Hx Hall]. simpl. rewrite Hx.
    apply prefix_cons. by apply IH.
Qed.

Lemma while_rest_head (l : list V) :
  match while_rest p l with
  | [] => Forall (fun x => p x = true) l
  | x :: _ => p x = false
  end.
Proof.
  induction l as [|x l IH]; simpl; [constructor|].
  destruct (p x) eqn:Hx; [|done].
  destruct (while_rest p l); [by constructor | done].
Qed.

Lemma first_index_while (l : list V) :
  default (length l) (first_index (fun x => negb (p x)) l) =
  length (while_prefix p l).
Proof.
  induction l as [|x l IH]; simpl; [done|].
  destruct (p x); simpl; [|done].
  rewrite <- IH. by destruct (first_index _ l).
Qed.

Lemma first_index_existsb (l : list V) :
  (if first_index p l is Some _ then true else false) = existsb p l.
Proof.
  induction l as [|x l IH]; simpl; [done|].
  destruct (p x); simpl; [done|].
  rewrite <- IH. by destruct (first_index p l).
Qed.

Lemma first_index_forallb (l : list V) :
  (if first_index (fun x => negb (p x)) l is Some _ then false else true) =
  forallb p l.
Proof.
  induction l as [|x l IH]; simpl; [done|].
  destruct (p x); simpl; [|done].
  rewrite <- IH. by destruct (first_index _ l).
Qed.

Lemma count_if_filter (l : list V) : count_if p l = length (List.filter p l).
Proof. induction l as [|x l IH]; simpl; [done|]. destruct (p x); simpl; lia. Qed.

Lemma filter_sublist (l : list V) : List.filter p l `sublist_of` l.
Proof.
  induction l as [|x l IH]; simpl; [constructor|].
  destruct (p x); by constructor.
Qed.
End list_facts.

Lemma foldl_snoc {A B : Type} (f : A → B) (l : list A) :
  ∀ acc : list B, foldl (fun mapped x => mapped ++ [f x]) acc l = acc ++ (f <$> l).
Proof.
  induction l as [|x l IH]; intros acc; simpl.
  - by rewrite app_nil_r.
  - rewrite IH, <- app_assoc. done.
Qed.

Lemma foldl_snoc_if {A : Type} (p : A → bool) (l : list A) :
  ∀ acc : list A,
    foldl (fun filtered x => if p x then filtered ++ [x] else filtered) acc l =
    acc ++ List.filter p l.
Proof.
  induction l as [|x l IH]; intros acc; simpl.
  - by rewrite app_nil_r.
  - rewrite IH. destruct (p x); [|done]. by rewrite <- app_assoc.
Qed.

(** ** Valid streams and their ranges *)

Section range_facts.
Context `{Collection TCollection V}.
Implicit Types s : Stream TCollection.

Lemma length_range s : valid s → length (range s) = end_ s - begin s.
Proof. intros [? ?]. unfold range. rewrite length_take, length_drop. lia. Qed.

Lemma valid_Stream_from (collection : TCollection) : valid (Stream_from collection).
Proof. unfold valid; simpl. lia. Qed.

Lemma range_Stream_from (collection : TCollection) :
  range (Stream_from collection) = traversal collection.
Proof. unfold range; simpl. rewrite Nat.sub_0_r. apply firstn_all. Qed.

Lemma range_front s (k : nat) :
  k ≤ end_ s - begin s →
  range (MkStream (storage s) (begin s) (begin s + k)) = firstn k (range s).
Proof.
  intros Hk. unfold range; simpl.
  rewrite take_take. f_equal. lia.
Qed.

Lemma range_back s (k : nat) :
  k ≤ end_ s - begin s →
  range (MkStream (storage s) (begin s + k) (end_ s)) = skipn k (range s).
Proof.
  intros Hk. unfold range; simpl.
  rewrite skipn_firstn_comm, drop_drop. f_equal. lia.
Qed.

Lemma valid_front s (k : nat) :
  valid s → k ≤ end_ s - begin s →
  valid (MkStream (storage s) (begin s) (begin s + k)).
Proof. unfold valid; simpl. lia. Qed.

Lemma valid_back s (k : nat) :
  valid s → k ≤ end_ s - begin s →
  valid (MkStream (storage s) (begin s + k) (end_ s)).
Proof. unfold valid; simpl. lia. Qed.

Lemma fold_loop_stream {A : Type} (body : A → V → A) (acc : A) s :
  valid s →
  fold_loop (traversal (storage s)) (end_ s) body (begin s) acc =
  Done (foldl body acc (range s)).
Proof. intros [? ?]. apply fold_loop_range; lia. Qed.

Lemma scan_loop_stream (stop : V → bool) s :
  valid s →
  scan_loop (traversal (storage s)) (end_ s) stop (begin s) =
  Done (Nat.add (begin s) <$> first_index stop (range s)).
Proof. intros [? ?]. apply scan_loop_range; lia. Qed.

(** The position at which the loops of [TakeWhile] and [SkipWhile] leave. *)
Lemma scan_loop_while (predicate : V → bool) s :
  valid s →
  ∃ left_at : option nat,
    scan_loop (traversal (storage s)) (end_ s)
      (fun x => negb (predicate x)) (begin s) = Done left_at ∧
    default (end_ s) left_at =
    begin s + length (while_prefix predicate (range s)).
Proof.
  intros Hs. eexists; split; [by apply scan_loop_stream|].
  rewrite <- first_index_while, length_range by done.
  destruct Hs. destruct (first_index _ _); simpl; lia.
Qed.

Lemma length_while_prefix_range (predicate : V → bool) s :
  valid s → length (while_prefix predicate (range s)) ≤ end_ s - begin s.
Proof.
  intros Hs. rewrite <- length_range by done.
  rewrite <- (while_prefix_rest predicate (range s)) at 2.
  rewrite length_app. lia.
Qed.

Lemma takeWhile_valid (predicate : V → bool) s :
  valid s →
  takeWhile predicate s =
  Done (MkStream (storage s) (begin s)
          (begin s + length (while_prefix predicate (range s)))).
Proof.
  intros Hs. unfold takeWhile, TakeWhile.
  destruct (scan_loop_while predicate s Hs) as (left_at & -> & Hat).
  simpl. by rewrite Hat.
Qed.

Lemma skipWhile_valid (predicate : V → bool) s :
  valid s →
  skipWhile predicate s =
  Done (MkStream (storage s)
          (begin s + length (while_prefix predicate (range s))) (end_ s)).
Proof.
  intros Hs. unfold skipWhile, SkipWhile.
  destruct (scan_loop_while predicate s Hs) as (left_at & -> & Hat).
  simpl. by rewrite Hat.
Qed.

Lemma take_valid (count : nat) s :
  valid s →
  take count s =
  MkStream (storage s) (begin s) (begin s + Nat.min count (end_ s - begin s)).
Proof. intros [? ?]. unfold take, Take. by rewrite advance_min. Qed.

Lemma skip_valid (count : nat) s :
  valid s →
  skip count s =
  MkStream (storage s) (begin s + Nat.min count (end_ s - begin s)) (end_ s).
Proof. intros [? ?]. unfold skip, Skip. by rewrite advance_min. Qed.

End range_facts.

(** ** Every stage built from a valid stream is valid *)

Section validity.
Context `{Collection TCollection V}.
Implicit Types s : Stream TCollection.

Lemma valid_take (count : nat) s : valid s → valid (take count s).
Proof.
  intros Hs. rewrite take_valid by done. apply valid_front; [done|lia].
Qed.

Lemma valid_skip (count : nat) s : valid s → valid (skip count s).
Proof.
  intros Hs. rewrite skip_valid by done. apply valid_back; [done|lia].
Qed.

Lemma valid_takeWhile (predicate : V → bool) s :
  valid s → ∃ front, takeWhile predicate s = Done front ∧ valid front.
Proof.
  intros Hs. eexists. split; [by apply takeWhile_valid|].
  apply valid_front; [done|]. by apply length_while_prefix_range.
Qed.

Lemma valid_skipWhile (predicate : V → bool) s :
  valid s → ∃ back, skipWhile predicate s = Done back ∧ valid back.
Proof.
  intros Hs. eexists. split; [by apply skipWhile_valid|].
  apply valid_back; [done|]. by apply length_while_prefix_range.
Qed.
End validity.

(** ** Terminal operations *)

Section terminal.
Context `{Collection TCollection V}.
Implicit Types s : Stream TCollection.

(** The first element of a non-empty range is the one [begin] designates,
    and the rest of the range starts one position further. *)
Lemma range_cons_inv s (x : V) (xs : list V) :
  range s = x :: xs →
  traversal (storage s) !! begin s = Some x ∧
  xs = firstn (end_ s - S (begin s)) (skipn (S (begin s)) (traversal (storage s))).
Proof.
  unfold range. intros Hr.
  destruct (end_ s - begin s) as [|k] eqn:Hk; [done|].
  destruct (traversal (storage s) !! begin s) as [y|] eqn:Hy.
  - rewrite (drop_S _ _ _ Hy) in Hr. simpl in Hr.
    injection Hr as -> <-. split; [done|]. f_equal. lia.
  - apply lookup_ge_None_1 in Hy. rewrite drop_ge in Hr by done.
    by rewrite take_nil in Hr.
Qed.

(** C1. The unseeded [reduce(reducer)]: on a non-empty range it returns the
    left-to-right fold of the range seeded with the first element.  On an
    empty range it reads the position [begin], which is outside the range,
    and then walks off the storage: the outcome is undefined, and no
    EmptySequence condition (nor any other) is reported. *)
Theorem reduce_unseeded (reducer : V → V → V) s :
  valid s →
  reduce reducer s =
  match range s with
  | [] => Undefined
  | first :: rest => Done (foldl reducer first rest)
  end.
Proof.
  intros Hs. unfold reduce.
  destruct (range s) as [|x xs] eqn:Hr.
  - pose proof (length_range s Hs) as Hlen. rewrite Hr in Hlen. simpl in Hlen.
    destruct (_ !! begin s); [|done].
    destruct Hs. by eapply fold_loop_past; [|lia].
  - pose proof (length_range s Hs) as Hlen. rewrite Hr in Hlen. simpl in Hlen.
    apply range_cons_inv in Hr as [-> ->].
    destruct Hs. apply fold_loop_range; lia.
Qed.

(** C6. The seeded [reduce(init, reducer)] returns the left-to-right fold of
    the range from [init]; on an empty range that is [init] itself. *)
Theorem reduce_seeded {R : Type} (init : R) (reducer : R → V → R) s :
  valid s →
  reduce_init init reducer s = Done (foldl reducer init (range s)) ∧
  (range s = [] → reduce_init init reducer s = Done init).
Proof.
  intros Hs. unfold reduce_init. rewrite fold_loop_stream by done.
  split; [done|]. by intros ->.
Qed.

(** C8. [any(predicate)] is true exactly when some element of the range
    satisfies the predicate, [all(predicate)] exactly when every element
    does; on an empty range they are false and true. *)
Theorem any_all_range (predicate : V → bool) s :
  valid s →
  ∃ a b : bool,
    any predicate s = Done a ∧ all predicate s = Done b ∧
    (a = true ↔ ∃ x : V, x ∈ range s ∧ predicate x = true) ∧
    (b = true ↔ ∀ x : V, x ∈ range s → predicate x = true) ∧
    (range s = [] → a = false ∧ b = true).
Proof.
  intros Hs. exists (existsb predicate (range s)), (forallb predicate (range s)).
  unfold any, all. rewrite !scan_loop_stream by done. simpl.
  split_and!.
  - destruct (first_index predicate (range s)) eqn:Hi;
      rewrite <- first_index_existsb, Hi; done.
  - destruct (first_index _ (range s)) eqn:Hi;
      rewrite <- first_index_forallb, Hi; done.
  - rewrite existsb_exists. by setoid_rewrite list_elem_of_In.
  - rewrite forallb_forall. by setoid_rewrite list_elem_of_In.
  - by intros ->.
Qed.
End terminal.

(** ** Narrowing stages *)

Section narrowing.
Context `{Collection TCollection V}.
Implicit Types s : Stream TCollection.

(** C5. [take(n)] narrows to the first [min(n, length)] elements and
    [skip(n)] to the elements after them, moving only [end], respectively
    [begin]; [take(0)] and [skip(length)] are empty, [take(n)] with
    [n >= length] and [skip(0)] leave the stream unchanged. *)
Theorem take_skip_count (n : nat) s :
  valid s →
  range (take n s) = firstn (Nat.min n (length (range s))) (range s) ∧
  range (skip n s) = skipn (Nat.min n (length (range s))) (range s) ∧
  (begin (take n s) = begin s ∧
   end_ (take n s) = begin s + Nat.min n (length (range s))) ∧
  (begin (skip n s) = begin s + Nat.min n (length (range s)) ∧
   end_ (skip n s) = end_ s) ∧
  range (take 0 s) = [] ∧
  range (skip (length (range s)) s) = [] ∧
  (length (range s) ≤ n → take n s = s) ∧
  skip 0 s = s.
Proof.
  intros Hs. pose proof (length_range s Hs) as Hlen.
  rewrite !take_valid, !skip_valid by done. rewrite Hlen. simpl.
  split_and!; try done.
  - apply range_front. lia.
  - apply range_back. lia.
  - rewrite range_front by lia. done.
  - rewrite range_back by lia. rewrite Nat.min_id.
    apply drop_ge. lia.
  - intros Hn. destruct Hs, s as [c b e]; simpl in *. f_equal. lia.
  - destruct s as [c b e]; simpl. f_equal. lia.
Qed.

(** C10. The ranges of [take(n)] and [skip(n)] of the same stream are a
    prefix of its range and the complementary suffix: concatenated they
    give the range back. *)
Theorem take_skip_partition (n : nat) s :
  valid s →
  range (take n s) ++ range (skip n s) = range s ∧
  range (take n s) `prefix_of` range s ∧
  range (skip n s) `suffix_of` range s.
Proof.
  intros Hs. pose proof (length_range s Hs) as Hlen.
  rewrite take_valid, skip_valid by done.
  rewrite range_front, range_back by lia.
  split_and!.
  - apply take_drop.
  - apply prefix_take.
  - apply suffix_drop.
Qed.

(** C4. The range of [takeWhile(p)] is the longest prefix of the range
    whose elements all satisfy [p]; the range of [skipWhile(p)] is what is
    left, starting at the first element that fails [p] (empty when none
    does); concatenated they give the range back. *)
Theorem takeWhile_skipWhile_partition (p : V → bool) s :
  valid s →
  ∃ front back : Stream TCollection,
    takeWhile p s = Done front ∧ skipWhile p s = Done back ∧
    range front `prefix_of` range s ∧
    Forall (fun x => p x = true) (range front) ∧
    (∀ l : list V,
       l `prefix_of` range s → Forall (fun x => p x = true) l →
       l `prefix_of` range front) ∧
    match range back with
    | [] => Forall (fun x => p x = true) (range s)
    | x :: _ => p x = false
    end ∧
    (Forall (fun x => p x = true) (range s) → range back = []) ∧
    range front ++ range back = range s.
Proof.
  intros Hs. pose proof (length_while_prefix_range p s Hs) as Hk.
  do 2 eexists. split; [by apply takeWhile_valid|].
  split; [by apply skipWhile_valid|].
  rewrite range_front, range_back by done.
  pose proof (while_prefix_rest p (range s)) as Hsplit.
  assert (firstn (length (while_prefix p (range s))) (range s) =
          while_prefix p (range s)) as ->.
  { rewrite <- Hsplit at 2. by rewrite take_app_length. }
  assert (skipn (length (while_prefix p (range s))) (range s) =
          while_rest p (range s)) as ->.
  { rewrite <- Hsplit at 2. by rewrite drop_app_length. }
  split_and!.
  - eexists. by rewrite Hsplit.
  - apply while_prefix_Forall.
  - apply while_prefix_longest.
  - apply while_rest_head.
  - intros Hall. pose proof (while_rest_head p (range s)) as Hhead.
    destruct (while_rest p (range s)) as [|x rest] eqn:Hrest; [done|].
    assert (x ∈ range s) as Hx.
    { rewrite <- Hsplit. apply elem_of_app. right. by left. }
    eapply Forall_forall in Hall; [|exact Hx]. congruence.
  - done.
Qed.
End narrowing.

(** ** Materializing stages and [collect] *)

Section materializing.
Context `{Collection TCollection V}.
Implicit Types s : Stream TCollection.

Lemma collect_valid (Target : Type) `{Collection Target V} s :
  valid s →
  collect Target s = Done (foldl insert (construct Target) (range s)).
Proof. intros Hs. unfold collect. by apply fold_loop_stream. Qed.

Lemma map_valid {R : Type} `{WithValueType TCollection R} (mapper : V → R) s :
  valid s →
  map mapper s =
  Done (Stream_from
          (foldl (fun mapped x => insert mapped (mapper x))
             (construct (RCollection TCollection R)) (range s))).
Proof.
  intros Hs. unfold map, Map, Map_map. by rewrite fold_loop_stream.
Qed.

Lemma filter_valid (predicate : V → bool) s :
  valid s →
  filter predicate s =
  Done (Stream_from
          (foldl (fun filtered x =>
                    if predicate x then insert filtered x else filtered)
             (construct TCollection) (range s))).
Proof.
  intros Hs. unfold filter, Filter, Filter_filter. by rewrite fold_loop_stream.
Qed.

Lemma valid_map {R : Type} `{WithValueType TCollection R} (mapper : V → R) s :
  valid s → ∃ mapped, map mapper s = Done mapped ∧ valid mapped.
Proof.
  intros Hs. eexists. split; [by apply map_valid|]. apply valid_Stream_from.
Qed.

Lemma valid_filter (predicate : V → bool) s :
  valid s → ∃ filtered, filter predicate s = Done filtered ∧ valid filtered.
Proof.
  intros Hs. eexists. split; [by apply filter_valid|]. apply valid_Stream_from.
Qed.

(** Collecting into a [std::vector] copies the range. *)
Lemma collect_vector s : valid s → collect (vector V) s = Done (range s).
Proof.
  intros Hs. rewrite collect_valid by done. f_equal. simpl.
  rewrite (foldl_snoc id). simpl. apply list_fmap_id.
Qed.
End materializing.

Lemma map_vector {T R : Type} (mapper : T → R) (s : Stream (vector T)) :
  valid s → map mapper s = Done (Stream_from (mapper <$> range s)).
Proof.
  intros Hs. rewrite map_valid by done. simpl. by rewrite foldl_snoc.
Qed.

Lemma filter_vector {T : Type} (predicate : T → bool) (s : Stream (vector T)) :
  valid s → filter predicate s = Done (Stream_from (List.filter predicate (range s))).
Proof.
  intros Hs. rewrite filter_valid by done. simpl. by rewrite foldl_snoc_if.
Qed.

(** ** [std::set] insertion *)

Section key_order.
Context {T : Type} `{StrictTotalLess T}.
Implicit Types items : list T.

Lemma less_asymmetric (x y : T) : less x y = true → less y x = false.
Proof.
  intros Hxy. destruct (less y x) eqn:Hyx; [|done].
  pose proof (less_transitive x y x Hxy Hyx) as Hxx.
  by rewrite less_irreflexive in Hxx.
Qed.

Lemma set_insert_elem (value : T) items (y : T) :
  y ∈ set_insert value items ↔ y = value ∨ y ∈ items.
Proof.
  induction items as [|z items IH]; simpl.
  - rewrite list_elem_of_singleton, elem_of_nil. tauto.
  - destruct (less value z) eqn:Hvz.
    { rewrite (elem_of_cons (z :: items)). tauto. }
    destruct (less z value) eqn:Hzv.
    + rewrite !elem_of_cons, IH. tauto.
    + assert (value = z) as -> by by apply less_connected.
      rewrite elem_of_cons. tauto.
Qed.

Lemma set_insert_key_order (value : T) items :
  in_key_order items → in_key_order (set_insert value items).
Proof.
  unfold in_key_order.
  induction 1 as [|z items Hitems IH Hz]; simpl.
  - repeat constructor.
  - destruct (less value z) eqn:Hvz.
    { constructor; [by constructor|]. constructor; [done|].
      eapply Forall_impl; [exact Hz|]. intros y Hy. simpl in Hy.
      by eapply less_transitive. }
    destruct (less z value) eqn:Hzv; [|by constructor].
    constructor; [done|]. apply Forall_forall. intros y Hy.
    apply set_insert_elem in Hy as [->|Hy]; [done|].
    by eapply Forall_forall in Hz.
Qed.

Lemma foldl_set_insert (l : list T) :
  ∀ items,
    in_key_order items →
    in_key_order (foldl (fun acc x => set_insert x acc) items l) ∧
    ∀ y : T, y ∈ foldl (fun acc x => set_insert x acc) items l ↔ y ∈ items ∨ y ∈ l.
Proof.
  induction l as [|x l IH]; intros items Hitems; simpl.
  - split; [done|]. intros y. rewrite elem_of_nil. tauto.
  - destruct (IH (set_insert x items)) as [Hsorted Helem].
    { by apply set_insert_key_order. }
    split; [done|]. intros y.
    rewrite Helem, set_insert_elem, elem_of_cons. tauto.
Qed.

Lemma key_order_NoDup items : in_key_order items → NoDup items.
Proof.
  induction 1 as [|z items Hitems IH Hz]; constructor; [|done].
  intros Hin. eapply Forall_forall in Hz; [|done].
  by rewrite less_irreflexive in Hz.
Qed.

(** A [std::set] is determined by the elements it holds. *)
Lemma key_order_unique (l1 l2 : list T) :
  in_key_order l1 → in_key_order l2 → (∀ x : T, x ∈ l1 ↔ x ∈ l2) → l1 = l2.
Proof.
  intros H1 H2 Hsame.
  apply (StronglySorted_unique_strong (fun x y => less x y = true)); [|done..|].
  - intros x y _ _ Hxy Hyx. apply less_asymmetric in Hxy. congruence.
  - by apply NoDup_Permutation; [apply key_order_NoDup..|].
Qed.

(** A value greater than every element goes to the back. *)
Lemma set_insert_back (value : T) items :
  Forall (fun y => less y value = true) items →
  set_insert value items = items ++ [value].
Proof.
  induction 1 as [|z items Hz Hitems IH]; simpl; [done|].
  by rewrite (less_asymmetric _ _ Hz), Hz, IH.
Qed.

Lemma foldl_set_insert_filter (p : T → bool) (l : list T) :
  ∀ items,
    in_key_order (items ++ l) →
    foldl (fun acc x => if p x then set_insert x acc else acc) items l =
    items ++ List.filter p l.
Proof.
  unfold in_key_order.
  induction l as [|x l IH]; intros items Hsorted; simpl.
  - by rewrite app_nil_r.
  - destruct (p x).
    + rewrite set_insert_back.
      * rewrite IH; [by rewrite <- app_assoc|]. by rewrite <- app_assoc.
      * apply Forall_forall. intros y Hy.
        apply (StronglySorted_app_1_elem_of _ items (x :: l) y x Hsorted Hy).
        by left.
    + apply IH. apply StronglySorted_app in Hsorted as (Hcross & H1 & H2).
      apply StronglySorted_app_2; [|done|by inversion H2].
      intros y1 y2 Hy1 Hy2. apply Hcross; [done|by right].
Qed.

Lemma foldl_insert_std_set (l : list T) :
  ∀ items,
    foldl insert (StdSet items) l =
    StdSet (foldl (fun acc x => set_insert x acc) items l).
Proof. induction l as [|x l IH]; intros items; simpl; [done|]. apply IH. Qed.

Lemma foldl_insert_if_std_set (p : T → bool) (l : list T) :
  ∀ items,
    foldl (fun filtered x => if p x then insert filtered x else filtered)
      (StdSet items) l =
    StdSet (foldl (fun acc x => if p x then set_insert x acc else acc) items l).
Proof.
  induction l as [|x l IH]; intros items; simpl; [done|].
  destruct (p x); apply IH.
Qed.

(** The range of a stream over a [std::set] is in key order. *)
Lemma key_order_range (s : Stream (std_set T)) :
  in_key_order (set_items (storage s)) → in_key_order (range s).
Proof.
  unfold in_key_order, range. simpl. intros Hsorted.
  rewrite <- (take_drop (begin s) (set_items (storage s))) in Hsorted.
  apply StronglySorted_app_1_r in Hsorted.
  rewrite <- (take_drop (end_ s - begin s) (skipn _ _)) in Hsorted.
  by apply StronglySorted_app_1_l in Hsorted.
Qed.

Lemma filter_std_set (predicate : T → bool) (s : Stream (std_set T)) :
  valid s → in_key_order (set_items (storage s)) →
  filter predicate s =
  Done (Stream_from (StdSet (List.filter predicate (range s)))).
Proof.
  intros Hs Hsorted. rewrite filter_valid by done. do 2 f_equal.
  change (construct (std_set T)) with (StdSet (@nil T)).
  rewrite foldl_insert_if_std_set. f_equal.
  apply (foldl_set_insert_filter predicate (range s) []).
  by apply key_order_range.
Qed.

Lemma collect_std_set `{Collection TCollection T} (s : Stream TCollection) :
  valid s →
  ∃ items : list T,
    collect (std_set T) s = Done (StdSet items) ∧
    in_key_order items ∧ NoDup items ∧ ∀ x : T, x ∈ items ↔ x ∈ range s.
Proof.
  intros Hs. rewrite collect_valid by done.
  change (construct (std_set T)) with (StdSet (@nil T)).
  rewrite foldl_insert_std_set.
  destruct (foldl_set_insert (range s) []) as [Hsorted Helem]; [constructor|].
  eexists. split; [done|]. split; [done|]. split; [by apply key_order_NoDup|].
  intros x. rewrite Helem, elem_of_nil. tauto.
Qed.
End key_order.

(** Mapping a stream over a [std::set] builds a [std::set] of the images. *)
Lemma map_std_set {T R : Type} `{Less T} `{StrictTotalLess R}
  (mapper : T → R) (s : Stream (std_set T)) :
  valid s →
  ∃ items : list R,
    map mapper s = Done (Stream_from (StdSet items)) ∧
    in_key_order items ∧
    ∀ y : R, y ∈ items ↔ ∃ x : T, x ∈ range s ∧ y = mapper x.
Proof.
  intros Hs. rewrite map_valid by done.
  assert (foldl (fun mapped x => insert mapped (mapper x))
            (construct (RCollection (std_set T) R)) (range s) =
          StdSet (foldl (fun acc x => set_insert x acc) [] (mapper <$> range s)))
    as ->.
  { rewrite foldl_fmap.
    change (construct (RCollection (std_set T) R)) with (StdSet (@nil R)).
    generalize (@nil R).
    induction (range s) as [|x l IH]; intros items; simpl; [done|]. apply IH. }
  destruct (foldl_set_insert (mapper <$> range s) []) as [Hsorted Helem];
    [constructor|].
  eexists. split; [done|]. split; [done|].
  intros y. rewrite Helem, elem_of_nil, list_elem_of_fmap. split.
  - intros [[]|(x & -> & Hx)]. eauto.
  - intros (x & Hx & ->). right. eauto.
Qed.

(** ** [std::unordered_set] insertion *)

Lemma foldl_insert_unordered_set {T : Type} `{Countable T} (l : list T) :
  ∀ acc : gset T, foldl insert acc l = list_to_set l ∪ acc.
Proof.
  induction l as [|x l IH]; intros acc.
  - by rewrite list_to_set_nil, (left_id_L ∅ (∪)).
  - cbn [foldl]. rewrite IH, list_to_set_cons. simpl.
    rewrite (assoc_L (∪)). f_equal. apply (comm_L (∪)).
Qed.

Lemma collect_unordered_set {T : Type} `{Countable T}
  `{Collection TCollection T} (s : Stream TCollection) :
  valid s → collect (unordered_set T) s = Done (list_to_set (range s)).
Proof.
  intros Hs. rewrite collect_valid by done. f_equal.
  rewrite foldl_insert_unordered_set. simpl. apply (right_id_L ∅ (∪)).
Qed.

#[global] Instance Z_StrictTotalLess : StrictTotalLess Z.
Proof.
  split; unfold less, Z_less.
  - intros x. apply Z.ltb_irrefl.
  - intros x y z. rewrite !Z.ltb_lt. lia.
  - intros x y. rewrite !Z.ltb_ge. lia.
Qed.

(** ** [std::unordered_set] insertion on the node list *)

Section hashtable_facts.
Context {T : Type} `{Hash T} `{EqDecision T}.
Implicit Types h : hashtable T.

Lemma link_before_Permutation (in_bucket : T → bool) (node : T) (l : list T) :
  link_before in_bucket node l ≡ₚ node :: l.
Proof.
  induction l as [|y l IH]; simpl; [done|].
  destruct (in_bucket y); [done|]. rewrite IH. apply Permutation_swap.
Qed.

Lemma insert_bucket_begin_Permutation (n : N) (node : T) (l : list T) :
  insert_bucket_begin n node l ≡ₚ node :: l.
Proof.
  unfold insert_bucket_begin. destruct (existsb _ l); [|done].
  apply link_before_Permutation.
Qed.

(** Growing the bucket array relinks the nodes and loses none. *)
Lemma rehash_aux_Permutation (n : N) (l : list T) : rehash_aux n l ≡ₚ l.
Proof.
  unfold rehash_aux.
  assert (∀ relinked : list T,
            foldl (fun relinked p => insert_bucket_begin n p relinked) relinked l
            ≡ₚ l ++ relinked) as Hfold.
  { induction l as [|x l IH]; intros relinked; simpl; [done|].
    rewrite IH, insert_bucket_begin_Permutation.
    by rewrite Permutation_middle. }
  by rewrite Hfold, app_nil_r.
Qed.

Lemma hashtable_insert_present h (value : T) :
  value ∈ nodes h → hashtable_insert h value = h.
Proof. intros Hin. unfold hashtable_insert. by rewrite bool_decide_true. Qed.

Lemma hashtable_insert_new h (value : T) :
  value ∉ nodes h → nodes (hashtable_insert h value) ≡ₚ value :: nodes h.
Proof.
  intros Hnew. unfold hashtable_insert. rewrite bool_decide_false by done.
  destruct (need_rehash _ _ _ _) as [[n|] resize]; simpl.
  - by rewrite insert_bucket_begin_Permutation, rehash_aux_Permutation.
  - apply insert_bucket_begin_Permutation.
Qed.

Lemma hashtable_insert_NoDup h (value : T) :
  NoDup (nodes h) → NoDup (nodes (hashtable_insert h value)).
Proof.
  intros Hnodup. destruct (decide (value ∈ nodes h)) as [Hin|Hnew].
  - by rewrite hashtable_insert_present.
  - rewrite hashtable_insert_new by done. by constructor.
Qed.

Lemma elem_of_hashtable_insert h (value y : T) :
  y ∈ nodes (hashtable_insert h value) ↔ y = value ∨ y ∈ nodes h.
Proof.
  destruct (decide (value ∈ nodes h)) as [Hin|Hnew].
  - rewrite hashtable_insert_present by done. split; [tauto|]. by intros [->|?].
  - rewrite hashtable_insert_new by done. apply elem_of_cons.
Qed.

(** What [Filter::filter] builds from values that are pairwise different
    and not yet in the table. *)
Lemma foldl_hashtable_insert_if (p : T → bool) (l : list T) :
  ∀ h,
    NoDup l → (∀ x : T, x ∈ l → x ∉ nodes h) →
    nodes (foldl (fun kept x => if p x then insert kept x else kept) h l)
    ≡ₚ List.filter p l ++ nodes h.
Proof.
  induction l as [|x l IH]; intros h Hnodup Hfresh; simpl; [done|].
  apply NoDup_cons in Hnodup as [Hx Hnodup].
  destruct (p x).
  - rewrite IH; [|done|].
    + rewrite hashtable_insert_new by (apply Hfresh; by left).
      simpl. by rewrite Permutation_middle.
    + intros y Hy. rewrite elem_of_hashtable_insert.
      intros [->|Hin]; [done|]. apply (Hfresh y); [by right|done].
  - apply IH; [done|]. intros y Hy. apply Hfresh. by right.
Qed.

Lemma filter_hashtable (predicate : T → bool) (s : Stream (hashtable T)) :
  valid s → NoDup (nodes (storage s)) →
  ∃ kept : hashtable T,
    filter predicate s = Done (Stream_from kept) ∧
    nodes kept ≡ₚ List.filter predicate (range s).
Proof.
  intros Hs Hnodup. eexists. split; [by apply filter_valid|].
  rewrite foldl_hashtable_insert_if.
  - simpl. by rewrite app_nil_r.
  - eapply sublist_NoDup; [exact Hnodup|]. unfold range. simpl.
    etrans; [apply sublist_take | apply sublist_drop].
  - intros x _. simpl. apply not_elem_of_nil.
Qed.
End hashtable_facts.

#[global] Instance hashtable_CollectionLaws (T : Type) `{Hash T} `{EqDecision T} :
  CollectionLaws (hashtable T) T.
Proof.
  split; [done|]. intros collection value y. simpl.
  apply elem_of_hashtable_insert.
Qed.

(** The set value of a node list: inserting into the table inserts into
    the value, so that the [Collection] entry over set values describes the
    same container up to the order of its nodes. *)
Lemma hashtable_insert_value {T : Type} `{Countable T} `{Hash T}
  (h : hashtable T) (value : T) :
  list_to_set (nodes (insert h value)) =@{unordered_set T}
  insert (list_to_set (nodes h)) value.
Proof.
  apply set_eq. intros y. simpl.
  rewrite elem_of_union, elem_of_singleton, !elem_of_list_to_set.
  apply elem_of_hashtable_insert.
Qed.

(** ** Mapping, filtering and collecting *)

Lemma keeps_matching_filter {V : Type} (p : V → bool) (S : list V) :
  keeps_matching p S (List.filter p S).
Proof.
  unfold keeps_matching. split_and!.
  - done.
  - apply Forall_forall. intros x Hx.
    apply list_elem_of_In, filter_In in Hx. tauto.
  - apply filter_sublist.
  - intros x. by rewrite !list_elem_of_In, filter_In.
  - by rewrite count_if_filter.
Qed.

(** C2 (amended). For a stream over a sequence container ([std::vector])
    and every function [f], [map(f)] appends [f(x)] to a new vector for each
    [x] of the range, in range order; collected, the result has the length
    of the range and holds [f(S[i])] at every valid index [i]. *)
Theorem map_collect_vector {T R : Type} (f : T → R) (s : Stream (vector T)) :
  valid s →
  ∃ (mapped : Stream (vector R)) (out : vector R),
    map f s = Done mapped ∧
    storage mapped = foldl (fun acc x => acc ++ [f x]) [] (range s) ∧
    collect (vector R) mapped = Done out ∧
    out = f <$> range s ∧
    length out = length (range s) ∧
    ∀ (i : nat) (x : T), range s !! i = Some x → out !! i = Some (f x).
Proof.
  intros Hs. exists (Stream_from (f <$> range s)), (f <$> range s).
  split_and!.
  - by apply map_vector.
  - simpl. by rewrite foldl_snoc.
  - rewrite collect_vector by apply valid_Stream_from.
    by rewrite range_Stream_from.
  - done.
  - apply length_fmap.
  - intros i x Hx. by rewrite list_lookup_fmap, Hx.
Qed.

(** C3 (amended). [filter(p)] materializes exactly the elements of the
    range that satisfy [p], in their relative order and in equal number,
    for a stream over a [std::vector] and for a stream over a [std::set].
    For a stream over a [std::unordered_set] it materializes exactly those
    elements, in equal number, in the order in which the new set links
    them, which is not bound to their order in the range. *)
Theorem filter_collect :
  (∀ (T : Type) (p : T → bool) (s : Stream (vector T)),
     valid s →
     ∃ (filtered : Stream (vector T)) (out : vector T),
       filter p s = Done filtered ∧ range filtered = out ∧
       collect (vector T) filtered = Done out ∧
       keeps_matching p (range s) out) ∧
  (∀ (T : Type) `(StrictTotalLess T) (p : T → bool) (s : Stream (std_set T)),
     valid s → in_key_order (set_items (storage s)) →
     ∃ (filtered : Stream (std_set T)) (out : vector T),
       filter p s = Done filtered ∧ range filtered = out ∧
       collect (vector T) filtered = Done out ∧
       keeps_matching p (range s) out) ∧
  (∀ (T : Type) `(Hash T) `(EqDecision T) (p : T → bool)
     (s : Stream (hashtable T)),
     valid s → NoDup (nodes (storage s)) →
     ∃ (filtered : Stream (hashtable T)) (out : vector T),
       filter p s = Done filtered ∧ range filtered = out ∧
       collect (vector T) filtered = Done out ∧
       out ≡ₚ List.filter p (range s) ∧
       Forall (fun x => p x = true) out ∧
       (∀ x : T, x ∈ out ↔ x ∈ range s ∧ p x = true) ∧
       length out = count_if p (range s)).
Proof.
  split_and!.
  - intros T p s Hs.
    exists (Stream_from (List.filter p (range s))), (List.filter p (range s)).
    split_and!.
    + by apply filter_vector.
    + by rewrite range_Stream_from.
    + rewrite collect_vector by apply valid_Stream_from.
      by rewrite range_Stream_from.
    + apply keeps_matching_filter.
  - intros T Hless Htotal p s Hs Hsorted.
    exists (Stream_from (StdSet (List.filter p (range s)))),
      (List.filter p (range s)).
    split_and!.
    + by apply filter_std_set.
    + by rewrite range_Stream_from.
    + rewrite collect_vector by apply valid_Stream_from.
      by rewrite range_Stream_from.
    + apply keeps_matching_filter.
  - intros T Hhash Heq p s Hs Hnodup.
    destruct (filter_hashtable p s Hs Hnodup) as (kept & Hfilter & Hperm).
    destruct (keeps_matching_filter p (range s)) as (_ & Hall & _ & Helem & Hlen).
    exists (Stream_from kept), (nodes kept).
    split_and!.
    + done.
    + by rewrite range_Stream_from.
    + rewrite collect_vector by apply valid_Stream_from.
      by rewrite range_Stream_from.
    + done.
    + by rewrite Hperm.
    + intros x. by rewrite Hperm.
    + by rewrite Hperm.
Qed.

(** C7. [collect] into a set-like container inserts the elements of the
    range in range order with the insertion of that container, which drops
    duplicates: a [std::set] ends up holding each element of the range
    once, in key order, a [std::unordered_set] each element once; so
    [map([1,1,2,2,3], identity)], however often each value is repeated,
    collects to exactly [{1,2,3}]. *)
Theorem collect_deduplicates :
  (∀ (TCollection V : Type) `(Collection TCollection V)
     `(Countable V) `(StrictTotalLess V) (s : Stream TCollection),
     valid s →
     (∃ items : list V,
        collect (std_set V) s = Done (StdSet items) ∧
        StdSet items = foldl insert (construct (std_set V)) (range s) ∧
        in_key_order items ∧ NoDup items ∧
        ∀ x : V, x ∈ items ↔ x ∈ range s) ∧
     (∃ u : unordered_set V,
        collect (unordered_set V) s = Done u ∧
        u = foldl insert (construct (unordered_set V)) (range s) ∧
        ∀ x : V, x ∈ u ↔ x ∈ range s)) ∧
  (∀ l : vector Z,
     (∀ x : Z, x ∈ l ↔ x ∈ [1; 2; 3]%Z) →
     (mapped ← map (fun x : Z => x) (Stream_from l);
      collect (std_set Z) mapped) = Done (StdSet [1; 2; 3]%Z) ∧
     (mapped ← map (fun x : Z => x) (Stream_from l);
      collect (unordered_set Z) mapped) = Done {[1; 2; 3]}%Z).
Proof.
  split.
  - intros TCollection V HC Heq Hcount Hless Htotal s Hs. split.
    + destruct (collect_std_set s Hs) as (items & Hcollect & Hsorted & Hnodup & Helem).
      exists items. split_and!; try done.
      rewrite collect_valid in Hcollect by done. by injection Hcollect.
    + exists (list_to_set (range s)). split_and!.
      * by apply collect_unordered_set.
      * pose proof (collect_unordered_set s Hs) as Hu.
        rewrite (collect_valid (unordered_set V) s Hs) in Hu.
        by injection Hu.
      * intros x. apply elem_of_list_to_set.
  - intros l Hl.
    rewrite map_vector by apply valid_Stream_from.
    rewrite range_Stream_from, list_fmap_id. simpl.
    pose proof (valid_Stream_from l) as Hs.
    split.
    + destruct (collect_std_set (Stream_from l) Hs)
        as (items & -> & Hsorted & _ & Helem).
      do 2 f_equal. apply key_order_unique; [done| |].
      * unfold in_key_order. by repeat constructor.
      * intros x. by rewrite Helem, range_Stream_from.
    + rewrite collect_unordered_set by done. f_equal.
      rewrite range_Stream_from. apply set_eq. intros x.
      rewrite elem_of_list_to_set, Hl, !elem_of_union, !elem_of_singleton.
      rewrite !elem_of_cons, elem_of_nil. tauto.
Qed.

(** C9. The source [[1..10]] through [filter(even)], [map(x => x*x)] and
    [take(2)], collected into a [std::vector], gives [[4, 16]]. *)
Theorem pipeline_filter_map_take :
  (evens ← filter Z.even (Stream_from one_to_ten);
   squares ← map (fun x : Z => x * x)%Z evens;
   collect (vector Z) (take 2 squares)) = Done [4; 16]%Z.
Proof. reflexivity. Qed.

(** ** The theorems at concrete streams *)

Lemma valid_sample_window : valid sample_window.
Proof. unfold valid. simpl. lia. Defined.

Lemma valid_sample_empty : valid sample_empty.
Proof. unfold valid. simpl. lia. Defined.

Lemma valid_sample_set : valid sample_set.
Proof. unfold valid. simpl. lia. Defined.

Lemma reduce_unseeded_witness :
  valid sample_empty ∧ valid sample_window ∧
  reduce Z.add sample_empty = Undefined ∧
  reduce Z.add sample_window = Done 19%Z.
Proof.
  split; [exact valid_sample_empty|]. split; [exact valid_sample_window|].
  split.
  - exact (reduce_unseeded Z.add sample_empty valid_sample_empty).
  - exact (reduce_unseeded Z.add sample_window valid_sample_window).
Defined.

Lemma reduce_seeded_witness :
  valid sample_window ∧ reduce_init 0%Z Z.add sample_window = Done 19%Z.
Proof.
  split; [exact valid_sample_window|].
  exact (proj1 (reduce_seeded 0%Z Z.add sample_window valid_sample_window)).
Defined.

Lemma any_all_range_witness :
  valid sample_window ∧
  ∃ a b : bool,
    any (Z.ltb 4) sample_window = Done a ∧
    all (Z.ltb 4) sample_window = Done b ∧
    (a = true ↔ ∃ x : Z, x ∈ range sample_window ∧ (4 <? x)%Z = true) ∧
    (b = true ↔ ∀ x : Z, x ∈ range sample_window → (4 <? x)%Z = true).
Proof.
  split; [exact valid_sample_window|].
  destruct (any_all_range (Z.ltb 4) sample_window valid_sample_window)
    as (a & b & Hany & Hall & Ha & Hb & _).
  exists a, b. split; [exact Hany|]. split; [exact Hall|].
  split; [exact Ha | exact Hb].
Defined.

Lemma take_skip_count_witness :
  valid sample_window ∧
  range (take 3 sample_window) =
    firstn (Nat.min 3 (length (range sample_window))) (range sample_window) ∧
  range (skip 3 sample_window) =
    skipn (Nat.min 3 (length (range sample_window))) (range sample_window).
Proof.
  split; [exact valid_sample_window|].
  destruct (take_skip_count 3 sample_window valid_sample_window)
    as (Htake & Hskip & _).
  split; [exact Htake | exact Hskip].
Defined.

Lemma take_skip_partition_witness :
  valid sample_window ∧
  range (take 3 sample_window) ++ range (skip 3 sample_window) =
  range sample_window.
Proof.
  split; [exact valid_sample_window|].
  exact (proj1 (take_skip_partition 3 sample_window valid_sample_window)).
Defined.

Lemma takeWhile_skipWhile_partition_witness :
  valid sample_window ∧
  ∃ front back : Stream (vector Z),
    takeWhile (Z.gtb 5) sample_window = Done front ∧
    skipWhile (Z.gtb 5) sample_window = Done back ∧
    range front ++ range back = range sample_window.
Proof.
  split; [exact valid_sample_window|].
  destruct (takeWhile_skipWhile_partition (Z.gtb 5) sample_window
              valid_sample_window)
    as (front & back & Hfront & Hback & _ & _ & _ & _ & _ & Hsplit).
  exists front, back. split; [exact Hfront|]. split; [exact Hback | exact Hsplit].
Defined.

Lemma map_collect_vector_witness :
  valid sample_window ∧
  ∃ (mapped : Stream (vector Z)) (out : vector Z),
    map Z.succ sample_window = Done mapped ∧
    collect (vector Z) mapped = Done out ∧
    length out = length (range sample_window).
Proof.
  split; [exact valid_sample_window|].
  destruct (map_collect_vector Z.succ sample_window valid_sample_window)
    as (mapped & out & Hmap & _ & Hcollect & _ & Hlen & _).
  exists mapped, out. split; [exact Hmap|]. split; [exact Hcollect | exact Hlen].
Defined.

(** C2, as stated, fails for a source held in a [std::set]: mapping the
    set [{1,2,3}] with the constant function 0 materializes the set [{0}],
    whose collected length 1 is not the length 3 of the source. *)
Lemma map_std_set_counterexample :
  valid sample_set ∧ range sample_set = [1; 2; 3]%Z ∧
  ∃ (mapped : Stream (std_set Z)) (out : vector Z),
    map (fun _ : Z => 0%Z) sample_set = Done mapped ∧
    collect (vector Z) mapped = Done out ∧
    out = [0%Z] ∧
    length out ≠ length (range sample_set).
Proof.
  split; [exact valid_sample_set|]. split; [reflexivity|].
  exists (Stream_from (StdSet [0%Z])), [0%Z].
  split; [reflexivity|]. split; [reflexivity|]. split; [reflexivity|].
  simpl. lia.
Qed.

Lemma valid_sample_hashed : valid sample_hashed.
Proof. unfold valid. simpl. lia. Defined.

Lemma NoDup_sample_hashed : NoDup (nodes (storage sample_hashed)).
Proof.
  change (nodes (storage sample_hashed)) with [1; 7; 2]%Z.
  apply (bool_decide_unpack _). reflexivity.
Defined.

Lemma filter_collect_witness :
  (valid sample_window ∧
   ∃ (filtered : Stream (vector Z)) (out : vector Z),
     filter Z.odd sample_window = Done filtered ∧
     collect (vector Z) filtered = Done out ∧
     keeps_matching Z.odd (range sample_window) out) ∧
  (valid sample_set ∧ in_key_order (set_items (storage sample_set)) ∧
   ∃ (filtered : Stream (std_set Z)) (out : vector Z),
     filter Z.odd sample_set = Done filtered ∧
     collect (vector Z) filtered = Done out ∧
     keeps_matching Z.odd (range sample_set) out) ∧
  (valid sample_hashed ∧ NoDup (nodes (storage sample_hashed)) ∧
   ∃ (filtered : Stream (hashtable Z)) (out : vector Z),
     filter Z.odd sample_hashed = Done filtered ∧
     collect (vector Z) filtered = Done out ∧
     out ≡ₚ List.filter Z.odd (range sample_hashed) ∧
     length out = count_if Z.odd (range sample_hashed)).
Proof.
  assert (in_key_order (set_items (storage sample_set))) as Hsorted.
  { unfold in_key_order. simpl. repeat constructor. }
  split; [|split].
  - split; [exact valid_sample_window|].
    destruct (proj1 filter_collect Z Z.odd sample_window valid_sample_window)
      as (filtered & out & Hfilter & _ & Hcollect & Hkeeps).
    exists filtered, out. split; [exact Hfilter|].
    split; [exact Hcollect | exact Hkeeps].
  - split; [exact valid_sample_set|]. split; [exact Hsorted|].
    destruct (proj1 (proj2 filter_collect) Z _ _ Z.odd sample_set
                valid_sample_set Hsorted)
      as (filtered & out & Hfilter & _ & Hcollect & Hkeeps).
    exists filtered, out. split; [exact Hfilter|].
    split; [exact Hcollect | exact Hkeeps].
  - split; [exact valid_sample_hashed|]. split; [exact NoDup_sample_hashed|].
    destruct (proj2 (proj2 filter_collect) Z _ _ Z.odd sample_hashed
                valid_sample_hashed NoDup_sample_hashed)
      as (filtered & out & Hfilter & _ & Hcollect & Hperm & _ & _ & Hlen).
    exists filtered, out. split; [exact Hfilter|]. split; [exact Hcollect|].
    split; [exact Hperm | exact Hlen].
Defined.

(** C3, as stated, fails for a source held in a [std::unordered_set]: the
    set [{2, 7, 1}] is iterated 1, 7, 2; [filter(odd)] inserts 1 and then 7
    into a new set, which links 7 in front of 1, so that the materialized
    sequence is 7, 1 although 1 comes before 7 in the source. *)
Lemma filter_unordered_set_counterexample :
  valid sample_hashed ∧ NoDup (nodes (storage sample_hashed)) ∧
  range sample_hashed = [1; 7; 2]%Z ∧
  ∃ (filtered : Stream (hashtable Z)) (out : vector Z),
    filter Z.odd sample_hashed = Done filtered ∧
    collect (vector Z) filtered = Done out ∧
    out = [7; 1]%Z ∧
    List.filter Z.odd (range sample_hashed) = [1; 7]%Z ∧
    ¬ out `sublist_of` range sample_hashed.
Proof.
  split; [exact valid_sample_hashed|]. split; [exact NoDup_sample_hashed|].
  split; [reflexivity|].
  exists (Stream_from (Hashtable 13 13 [7; 1]%Z)), [7; 1]%Z.
  split; [reflexivity|]. split; [reflexivity|]. split; [reflexivity|].
  split; [reflexivity|].
  change (range sample_hashed) with [1; 7; 2]%Z. intros Hsub.
  apply sublist_cons_r in Hsub as [Hsub|(l & [= <-] & _)].
  apply sublist_cons_r in Hsub as [Hsub|(l & [= <-] & Hsub)].
  - apply sublist_cons_r in Hsub as [Hsub|(l & [=] & _)].
    by apply sublist_nil_r in Hsub.
  - apply sublist_cons_r in Hsub as [Hsub|(l & [=] & _)].
    by apply sublist_nil_r in Hsub.
Qed.

Lemma collect_deduplicates_witness :
  valid sample_window ∧
  (∃ items : list Z,
     collect (std_set Z) sample_window = Done (StdSet items) ∧
     in_key_order items ∧ NoDup items ∧
     ∀ x : Z, x ∈ items ↔ x ∈ range sample_window) ∧
  (mapped ← map (fun x : Z => x) (Stream_from [1; 1; 2; 2; 3]%Z);
   collect (std_set Z) mapped) = Done (StdSet [1; 2; 3]%Z) ∧
  (mapped ← map (fun x : Z => x) (Stream_from [1; 1; 2; 2; 3]%Z);
   collect (unordered_set Z) mapped) = Done {[1; 2; 3]}%Z.
Proof.
  split; [exact valid_sample_window|]. split.
  - destruct (proj1 (proj1 collect_deduplicates (vector Z) Z _ _ _ _ _
                       sample_window valid_sample_window))
      as (items & Hcollect & _ & Hsorted & Hnodup & Helem).
    exists items. split; [exact Hcollect|]. split; [exact Hsorted|].
    split; [exact Hnodup | exact Helem].
  - apply (proj2 collect_deduplicates [1; 1; 2; 2; 3]%Z).
    intros x. rewrite !elem_of_cons, !elem_of_nil. tauto.
Defined.

(** * Further properties of the library *)

(** ** Auxiliary facts *)

Section more_loop_facts.
Context {V : Type} (mem : list V) (last : nat).

(** With [iter == end] at entry the loop body is never run. *)
Lemma fold_loop_at_end {A : Type} (body : A → V → A) (acc : A) :
  fold_loop mem last body last acc = Done acc.
Proof. rewrite fold_loop_step. by rewrite Nat.eqb_refl. Qed.

Lemma scan_loop_at_end (stop : V → bool) : scan_loop mem last stop last = Done None.
Proof. rewrite scan_loop_step. by rewrite Nat.eqb_refl. Qed.
End more_loop_facts.

Section more_list_facts.
Context {V : Type} (p : V → bool).

Lemma while_prefix_idemp (l : list V) :
  while_prefix p (while_prefix p l) = while_prefix p l.
Proof.
  induction l as [|x l IH]; simpl; [done|].
  destruct (p x) eqn:Hx; simpl; [|done]. by rewrite Hx, IH.
Qed.

Lemma while_prefix_of_rest (l : list V) : while_prefix p (while_rest p l) = [].
Proof.
  induction l as [|x l IH]; simpl; [done|].
  destruct (p x) eqn:Hx; simpl; [done|]. by rewrite Hx.
Qed.

Lemma while_rest_of_prefix (l : list V) : while_rest p (while_prefix p l) = [].
Proof.
  induction l as [|x l IH]; simpl; [done|].
  destruct (p x) eqn:Hx; simpl; [|done]. by rewrite Hx.
Qed.

Lemma length_while_prefix_forallb (l : list V) :
  length (while_prefix p l) = length l ↔ forallb p l = true.
Proof.
  induction l as [|x l IH]; simpl; [done|].
  destruct (p x); simpl; [|done]. rewrite <- IH. lia.
Qed.

Lemma while_rest_nil_forallb (l : list V) :
  while_rest p l = [] ↔ forallb p l = true.
Proof.
  induction l as [|x l IH]; simpl; [done|].
  destruct (p x); simpl; [done|]. split; discriminate.
Qed.
End more_list_facts.

Section more_range_facts.
Context `{Collection TCollection V}.
Implicit Types s : Stream TCollection.

Lemma range_take (count : nat) s :
  valid s → range (take count s) = firstn count (range s).
Proof.
  intros Hs. rewrite take_valid, range_front by (done || lia).
  rewrite <- (length_range s Hs).
  destruct (Nat.min_spec count (length (range s))) as [[? ->]|[? ->]]; [done|].
  by rewrite firstn_all, take_ge.
Qed.

Lemma range_skip (count : nat) s :
  valid s → range (skip count s) = skipn count (range s).
Proof.
  intros Hs. rewrite skip_valid, range_back by (done || lia).
  rewrite <- (length_range s Hs).
  destruct (Nat.min_spec count (length (range s))) as [[? ->]|[? ->]]; [done|].
  by rewrite !drop_ge.
Qed.

Lemma range_takeWhile (predicate : V → bool) s :
  valid s →
  range (MkStream (storage s) (begin s)
           (begin s + length (while_prefix predicate (range s)))) =
  while_prefix predicate (range s).
Proof.
  intros Hs. rewrite range_front by by apply length_while_prefix_range.
  rewrite <- (while_prefix_rest predicate (range s)) at 2.
  by rewrite take_app_length.
Qed.

Lemma range_skipWhile (predicate : V → bool) s :
  valid s →
  range (MkStream (storage s)
           (begin s + length (while_prefix predicate (range s))) (end_ s)) =
  while_rest predicate (range s).
Proof.
  intros Hs. rewrite range_back by by apply length_while_prefix_range.
  rewrite <- (while_prefix_rest predicate (range s)) at 2.
  by rewrite drop_app_length.
Qed.

Lemma any_valid (predicate : V → bool) s :
  valid s → any predicate s = Done (existsb predicate (range s)).
Proof.
  intros Hs. unfold any. rewrite scan_loop_stream by done. simpl.
  unfold mret, outcome_ret. f_equal.
  rewrite <- first_index_existsb. by destruct (first_index _ _).
Qed.

Lemma all_valid (predicate : V → bool) s :
  valid s → all predicate s = Done (forallb predicate (range s)).
Proof.
  intros Hs. unfold all. rewrite scan_loop_stream by done. simpl.
  unfold mret, outcome_ret. f_equal.
  rewrite <- first_index_forallb. by destruct (first_index _ _).
Qed.

Lemma reduce_init_valid {R : Type} (init : R) (reducer : R → V → R) s :
  valid s → reduce_init init reducer s = Done (foldl reducer init (range s)).
Proof. intros Hs. by apply fold_loop_stream. Qed.
End more_range_facts.

Lemma foldl_usize_index {V St : Type} (consumer : St → Z → V → St) (l : list V) :
  ∀ (k : nat) (st : St),
    (Z.of_nat (k + length l) ≤ 2 ^ usize_bits)%Z →
    (foldl (fun acc x => (usize_incr acc.1, consumer acc.2 acc.1 x))
       (Z.of_nat k, st) l).2 =
    foldl (fun st' ix => consumer st' ix.1 ix.2) st
      (imap (fun i x => (Z.of_nat (k + i), x)) l).
Proof.
  induction l as [|x l IH]; intros k st Hk; [done|].
  cbn [foldl imap fst snd]. rewrite Nat.add_0_r.
  destruct l as [|y l]; [done|].
  assert (usize_incr (Z.of_nat k) = Z.of_nat (S k)) as ->.
  { unfold usize_incr. simpl length in Hk. rewrite Z.mod_small; lia. }
  rewrite IH by (simpl length in *; lia).
  f_equal. apply imap_ext. intros i z _. simpl. do 2 f_equal. lia.
Qed.

(** ** Visiting the range *)

Section visiting.
Context `{Collection TCollection V}.
Implicit Types s : Stream TCollection.

(** X1. [forEach] calls the consumer once on every element of the range,
    in range order, and on nothing else: a consumer that records what it
    is given ends up with the range. *)
Theorem forEach_visits_range {St : Type} (consumer : St → V → St) s (st : St) :
  valid s →
  forEach consumer s st = Done (foldl consumer st (range s)) ∧
  forEach (fun seen x => seen ++ [x]) s [] = Done (range s).
Proof.
  intros Hs. unfold forEach. rewrite !fold_loop_stream by done.
  split; [done|]. rewrite (foldl_snoc id). simpl. by rewrite list_fmap_id.
Qed.

(** X2. [forEachIndexed] hands the consumer the elements of the range in
    order, each with its zero-based position in the range, as long as the
    range has at most [2^64] elements (the counter is a [usize]). *)
Theorem forEachIndexed_positions {St : Type} (consumer : St → Z → V → St) s (st : St) :
  valid s →
  (Z.of_nat (length (range s)) ≤ 2 ^ usize_bits)%Z →
  forEachIndexed consumer s st =
    Done (foldl (fun st' ix => consumer st' ix.1 ix.2) st
            (imap (fun i x => (Z.of_nat i, x)) (range s))) ∧
  forEachIndexed (fun seen i x => seen ++ [(i, x)]) s [] =
    Done (imap (fun i x => (Z.of_nat i, x)) (range s)).
Proof.
  intros Hs Hlen. unfold forEachIndexed. rewrite !fold_loop_stream by done.
  simpl. unfold mret, outcome_ret.
  split; f_equal.
  { by rewrite (foldl_usize_index consumer (range s) 0). }
  pose proof (foldl_usize_index (fun seen i x => seen ++ [(i, x)])
                (range s) 0 [] Hlen) as Hseen.
  change (Z.of_nat 0) with 0%Z in Hseen. simpl in Hseen. rewrite Hseen.
  rewrite (foldl_snoc (fun ix : Z * V => (ix.1, ix.2))). simpl.
  etrans; [|apply list_fmap_id]. apply list_fmap_ext. by intros i [index x] _.
Qed.
End visiting.

Lemma forEach_visits_range_witness :
  valid sample_window ∧
  forEach (fun seen x => seen ++ [x]) sample_window [] = Done [4; 1; 5; 9]%Z.
Proof.
  split; [exact valid_sample_window|].
  exact (proj2 (forEach_visits_range (fun (st : unit) _ => st) sample_window tt
                  valid_sample_window)).
Defined.

Lemma forEachIndexed_positions_witness :
  valid sample_window ∧
  (Z.of_nat (length (range sample_window)) ≤ 2 ^ usize_bits)%Z ∧
  forEachIndexed (fun seen i x => seen ++ [(i, x)]) sample_window [] =
  Done [(0, 4); (1, 1); (2, 5); (3, 9)]%Z.
Proof.
  assert (Z.of_nat (length (range sample_window)) ≤ 2 ^ usize_bits)%Z as Hlen
    by (vm_compute; discriminate).
  split; [exact valid_sample_window|]. split; [exact Hlen|].
  exact (proj2 (forEachIndexed_positions (fun (st : unit) _ _ => st)
                  sample_window tt valid_sample_window Hlen)).
Defined.

(** ** The empty range *)

Section empty_range.
Context `{Collection TCollection V}.
Implicit Types s : Stream TCollection.

(** X3. When [begin == end] no operation other than the unseeded [reduce]
    reads an element, wherever the two iterators point: the seeded
    [reduce] returns its seed, [any] is false and [all] true, [forEach]
    leaves the consumer's state alone, [collect], [map] and [filter] give a
    default-constructed container, and the narrowing stages give the same
    stream back. *)
Theorem empty_range_is_never_read {R St Target : Type}
  `{WithValueType TCollection R} `{Collection Target V}
  (init : R) (reducer : R → V → R) (predicate : V → bool)
  (consumer : St → V → St) (st : St) (mapper : V → R) (count : nat) s :
  begin s = end_ s →
  reduce_init init reducer s = Done init ∧
  any predicate s = Done false ∧
  all predicate s = Done true ∧
  forEach consumer s st = Done st ∧
  collect Target s = Done (construct Target) ∧
  map mapper s = Done (Stream_from (construct (RCollection TCollection R))) ∧
  filter predicate s = Done (Stream_from (construct TCollection)) ∧
  takeWhile predicate s = Done s ∧
  skipWhile predicate s = Done s ∧
  take count s = s ∧
  skip count s = s.
Proof.
  destruct s as [c b e]. simpl. intros <-.
  unfold reduce_init, any, all, forEach, collect, map, Map, Map_map, filter,
    Filter, Filter_filter, takeWhile, TakeWhile, skipWhile, SkipWhile, take,
    Take, skip, Skip.
  simpl. rewrite !fold_loop_at_end, !scan_loop_at_end. simpl.
  split_and!; try done.
  - destruct count; simpl; by rewrite ?Nat.eqb_refl.
  - destruct count; simpl; by rewrite ?Nat.eqb_refl.
Qed.
End empty_range.

Lemma empty_range_is_never_read_witness :
  begin sample_empty = end_ sample_empty ∧
  reduce_init 0%Z Z.add sample_empty = Done 0%Z ∧
  any Z.even sample_empty = Done false ∧
  all Z.even sample_empty = Done true.
Proof.
  split; [reflexivity|].
  destruct (empty_range_is_never_read (Target := vector Z) 0%Z Z.add Z.even
              (fun (st : unit) _ => st) tt Z.succ 0 sample_empty eq_refl)
    as (Hreduce & Hany & Hall & _).
  split; [exact Hreduce|]. split; [exact Hany | exact Hall].
Defined.

(** ** Stages as views *)

Section views.
Context `{Collection TCollection V}.
Implicit Types s : Stream TCollection.

(** X4. On a valid stream every stage returns a valid stream.  The
    narrowing stages return a view into the same storage that lies inside
    the view they were given; [map] and [filter] return a view of the
    whole of the container they built. *)
Theorem stages_keep_views_valid {R : Type} `{WithValueType TCollection R}
  (count : nat) (predicate : V → bool) (mapper : V → R) s :
  valid s →
  narrows (take count s) s ∧
  narrows (skip count s) s ∧
  (∃ front, takeWhile predicate s = Done front ∧ narrows front s) ∧
  (∃ back, skipWhile predicate s = Done back ∧ narrows back s) ∧
  (∃ filtered, filter predicate s = Done filtered ∧ valid filtered ∧
     range filtered = traversal (storage filtered)) ∧
  (∃ mapped, map mapper s = Done mapped ∧ valid mapped ∧
     range mapped = traversal (storage mapped)).
Proof.
  intros Hs. pose proof (length_while_prefix_range predicate s Hs) as Hk.
  pose proof Hs as [Hbegin Hend].
  split_and!.
  - rewrite take_valid by done. unfold narrows. cbn [storage begin end_].
    split_and!; [done|lia|lia|apply valid_front; [done|lia]].
  - rewrite skip_valid by done. unfold narrows. cbn [storage begin end_].
    split_and!; [done|lia|lia|apply valid_back; [done|lia]].
  - eexists. split; [by apply takeWhile_valid|].
    unfold narrows. cbn [storage begin end_].
    split_and!; [done|lia|lia|by apply valid_front].
  - eexists. split; [by apply skipWhile_valid|].
    unfold narrows. cbn [storage begin end_].
    split_and!; [done|lia|lia|by apply valid_back].
  - eexists. split; [by apply filter_valid|].
    split; [apply valid_Stream_from | by rewrite range_Stream_from].
  - eexists. split; [by apply map_valid|].
    split; [apply valid_Stream_from | by rewrite range_Stream_from].
Qed.

(** X5. Taking twice takes the smaller count; skipping twice skips the
    sum of the counts. *)
Theorem take_take_skip_skip (m n : nat) s :
  valid s →
  take m (take n s) = take (Nat.min m n) s ∧
  skip m (skip n s) = skip (n + m) s.
Proof.
  intros Hs. pose proof (valid_take n s Hs) as Htake.
  pose proof (valid_skip n s Hs) as Hskip.
  rewrite (take_valid m), (skip_valid m) by done.
  rewrite !take_valid, !skip_valid by done. cbn [storage begin end_].
  destruct Hs. split; f_equal; lia.
Qed.

(** X6. A window of [n] elements after the first [k] is the same stream
    whether the front is skipped before or after the back is cut off. *)
Theorem skip_take_window (k n : nat) s :
  valid s → skip k (take (k + n) s) = take n (skip k s).
Proof.
  intros Hs. pose proof (valid_take (k + n) s Hs) as Htake.
  pose proof (valid_skip k s Hs) as Hskip.
  rewrite (skip_valid k), (take_valid n) by done.
  rewrite !take_valid, !skip_valid by done. cbn [storage begin end_].
  destruct Hs. f_equal; lia.
Qed.
End views.

Lemma stages_keep_views_valid_witness :
  valid sample_window ∧
  narrows (take 3 sample_window) sample_window ∧
  narrows (skip 3 sample_window) sample_window.
Proof.
  split; [exact valid_sample_window|].
  destruct (stages_keep_views_valid 3 Z.even Z.succ sample_window
              valid_sample_window) as (Htake & Hskip & _).
  split; [exact Htake | exact Hskip].
Defined.

Lemma take_take_skip_skip_witness :
  valid sample_source ∧
  take 5 (take 3 sample_source) = take (Nat.min 5 3) sample_source ∧
  skip 5 (skip 3 sample_source) = skip (3 + 5) sample_source.
Proof.
  assert (valid sample_source) as Hs by (unfold valid; simpl; lia).
  split; [exact Hs|]. exact (take_take_skip_skip 5 3 sample_source Hs).
Defined.

Lemma skip_take_window_witness :
  valid sample_source ∧
  skip 2 (take (2 + 4) sample_source) = take 4 (skip 2 sample_source).
Proof.
  assert (valid sample_source) as Hs by (unfold valid; simpl; lia).
  split; [exact Hs|]. exact (skip_take_window 2 4 sample_source Hs).
Defined.

(** ** Folding *)

Section folding.
Context `{Collection TCollection V}.
Implicit Types s : Stream TCollection.

(** X7. A seeded [reduce] can be cut anywhere: reducing the first [n]
    elements and then, seeded with that result, the elements after them
    gives the seeded [reduce] of the whole stream. *)
Theorem reduce_init_take_skip {R : Type}
  (init : R) (reducer : R → V → R) (n : nat) s :
  valid s →
  (acc ← reduce_init init reducer (take n s);
   reduce_init acc reducer (skip n s)) =
  reduce_init init reducer s.
Proof.
  intros Hs.
  rewrite (reduce_init_valid _ _ (take n s)) by by apply valid_take.
  simpl.
  rewrite (reduce_init_valid _ _ (skip n s)) by by apply valid_skip.
  rewrite reduce_init_valid by done.
  rewrite range_take, range_skip by done.
  by rewrite <- foldl_app, take_drop.
Qed.

(** X8. On a non-empty range the unseeded [reduce] is the seeded one over
    the rest of the range, seeded with the element at [begin]. *)
Theorem reduce_is_seeded_with_first (reducer : V → V → V) s :
  valid s → begin s < end_ s →
  ∃ first : V,
    traversal (storage s) !! begin s = Some first ∧
    range s = first :: range (skip 1 s) ∧
    reduce reducer s = reduce_init first reducer (skip 1 s).
Proof.
  intros Hs Hlt. pose proof Hs as [Hbegin Hend].
  destruct (lookup_lt_is_Some_2 (traversal (storage s)) (begin s)) as [x Hx];
    [lia|].
  exists x. split; [done|]. split.
  - rewrite range_skip by done. unfold range at 1.
    rewrite (drop_S _ _ _ Hx).
    destruct (end_ s - begin s) as [|k] eqn:Hk; [lia|]. simpl.
    f_equal. unfold range. rewrite Hk. simpl. rewrite (drop_S _ _ _ Hx).
    simpl. by rewrite drop_0.
  - unfold reduce, reduce_init, skip, Skip. rewrite Hx. simpl.
    by replace (begin s =? end_ s) with false
      by (symmetry; apply Nat.eqb_neq; lia).
Qed.
End folding.

Lemma reduce_init_take_skip_witness :
  valid sample_window ∧
  (acc ← reduce_init 0%Z Z.add (take 1 sample_window);
   reduce_init acc Z.add (skip 1 sample_window)) =
  reduce_init 0%Z Z.add sample_window.
Proof.
  split; [exact valid_sample_window|].
  exact (reduce_init_take_skip 0%Z Z.add 1 sample_window valid_sample_window).
Defined.

Lemma reduce_is_seeded_with_first_witness :
  valid sample_window ∧ begin sample_window < end_ sample_window ∧
  ∃ first : Z,
    reduce Z.mul sample_window = reduce_init first Z.mul (skip 1 sample_window).
Proof.
  assert (begin sample_window < end_ sample_window) as Hlt by (simpl; lia).
  split; [exact valid_sample_window|]. split; [exact Hlt|].
  destruct (reduce_is_seeded_with_first Z.mul sample_window
              valid_sample_window Hlt) as (first & _ & _ & Hreduce).
  exists first. exact Hreduce.
Defined.

(** ** Scanning with a predicate *)

Section scanning.
Context `{Collection TCollection V}.
Implicit Types s : Stream TCollection.

(** X9. [takeWhile] and [skipWhile] are idempotent, and each undoes the
    other: nothing is left to skip in front of what [takeWhile] kept, and
    nothing is left to take in front of what [skipWhile] kept. *)
Theorem takeWhile_skipWhile_idempotent (p : V → bool) s :
  valid s →
  ∃ front back : Stream TCollection,
    takeWhile p s = Done front ∧ skipWhile p s = Done back ∧
    takeWhile p front = Done front ∧
    skipWhile p back = Done back ∧
    (∃ rest, skipWhile p front = Done rest ∧ range rest = []) ∧
    (∃ none, takeWhile p back = Done none ∧ range none = []).
Proof.
  intros Hs. pose proof (length_while_prefix_range p s Hs) as Hk.
  pose proof (valid_front s _ Hs Hk) as Hfront.
  pose proof (valid_back s _ Hs Hk) as Hback.
  pose proof (range_takeWhile p s Hs) as Hrf.
  pose proof (range_skipWhile p s Hs) as Hrb.
  do 2 eexists.
  split; [by apply takeWhile_valid|]. split; [by apply skipWhile_valid|].
  split_and!.
  - rewrite takeWhile_valid by done. rewrite Hrf, while_prefix_idemp. done.
  - rewrite skipWhile_valid by done. rewrite Hrb, while_prefix_of_rest.
    cbn [storage begin end_ length]. do 2 f_equal. lia.
  - eexists. split; [by apply skipWhile_valid|].
    rewrite range_skipWhile by done. by rewrite Hrf, while_rest_of_prefix.
  - eexists. split; [by apply takeWhile_valid|].
    rewrite range_takeWhile by done. by rewrite Hrb, while_prefix_of_rest.
Qed.

(** X10. [all(p)] is true exactly when [takeWhile(p)] keeps the whole
    stream, and exactly when [skipWhile(p)] leaves nothing. *)
Theorem all_iff_takeWhile_keeps_all (p : V → bool) s :
  valid s →
  (all p s = Done true ↔ takeWhile p s = Done s) ∧
  (all p s = Done true ↔ ∃ back, skipWhile p s = Done back ∧ range back = []).
Proof.
  intros Hs. pose proof (length_range s Hs) as Hlen. pose proof Hs as [? ?].
  rewrite all_valid, takeWhile_valid, skipWhile_valid by done.
  split; split.
  - intros [= Hall]. apply length_while_prefix_forallb in Hall.
    destruct s as [c b e]; cbn [storage begin end_] in *.
    do 2 f_equal. lia.
  - destruct s as [c b e]; cbn [storage begin end_] in *.
    intros [= Hend]. f_equal. apply length_while_prefix_forallb. lia.
  - intros [= Hall]. eexists. split; [done|].
    rewrite range_skipWhile by done. by apply while_rest_nil_forallb.
  - intros (back & [= <-] & Hnil). f_equal.
    rewrite range_skipWhile in Hnil by done.
    by apply while_rest_nil_forallb.
Qed.
End scanning.

(** X11. [all] and [any] are dual on every stream, also where they run off
    the storage: [all(p)] returns the negation of what [any] returns for
    the negated predicate, and is undefined exactly when that is. *)
Theorem all_any_dual `{Collection TCollection V}
  (p : V → bool) (s : Stream TCollection) :
  all p s = (found ← any (fun x => negb (p x)) s; mret (negb found)).
Proof.
  unfold all, any.
  destruct (scan_loop _ _ _ _) as [[at_|]|]; done.
Qed.

Lemma takeWhile_skipWhile_idempotent_witness :
  valid sample_window ∧
  ∃ front back : Stream (vector Z),
    takeWhile (Z.gtb 5) sample_window = Done front ∧
    skipWhile (Z.gtb 5) sample_window = Done back ∧
    takeWhile (Z.gtb 5) front = Done front ∧
    skipWhile (Z.gtb 5) back = Done back.
Proof.
  split; [exact valid_sample_window|].
  destruct (takeWhile_skipWhile_idempotent (Z.gtb 5) sample_window
              valid_sample_window)
    as (front & back & Hfront & Hback & Hff & Hbb & _).
  exists front, back. split; [exact Hfront|]. split; [exact Hback|].
  split; [exact Hff | exact Hbb].
Defined.

Lemma all_iff_takeWhile_keeps_all_witness :
  valid sample_window ∧
  (all (Z.ltb 0) sample_window = Done true ↔
   takeWhile (Z.ltb 0) sample_window = Done sample_window).
Proof.
  split; [exact valid_sample_window|].
  exact (proj1 (all_iff_takeWhile_keeps_all (Z.ltb 0) sample_window
                  valid_sample_window)).
Defined.

(** ** Collecting back *)

(** X12. A stream over a whole [std::vector] collects to that vector, and
    a stream over a whole [std::unordered_set] collects to that set. *)
Theorem collect_round_trip :
  (∀ (T : Type) (v : vector T), collect (vector T) (Stream_from v) = Done v) ∧
  (∀ (T : Type) `(Countable T) (u : unordered_set T),
     collect (unordered_set T) (Stream_from u) = Done u).
Proof.
  split.
  - intros T v. rewrite collect_vector by apply valid_Stream_from.
    by rewrite range_Stream_from.
  - intros T Heq Hcount u.
    rewrite collect_unordered_set by apply valid_Stream_from.
    rewrite range_Stream_from. simpl. by rewrite list_to_set_elements_L.
Qed.

(** X13. A stream over a whole [std::set] collects to that set. *)
Theorem collect_round_trip_std_set {T : Type} `{StrictTotalLess T} (c : std_set T) :
  in_key_order (set_items c) →
  collect (std_set T) (Stream_from c) = Done c.
Proof.
  intros Hsorted.
  destruct (collect_std_set (Stream_from c) (valid_Stream_from c))
    as (items & -> & Hitems & _ & Helem).
  destruct c as [l]. do 2 f_equal. simpl in *.
  apply key_order_unique; [done..|].
  intros x. by rewrite Helem, range_Stream_from.
Qed.

Lemma collect_round_trip_std_set_witness :
  in_key_order (set_items (storage sample_set)) ∧
  collect (std_set Z) sample_set = Done (StdSet [1; 2; 3]%Z).
Proof.
  assert (in_key_order (set_items (storage sample_set))) as Hsorted.
  { unfold in_key_order. simpl. repeat constructor. }
  split; [exact Hsorted|].
  exact (collect_round_trip_std_set (StdSet [1; 2; 3]%Z) Hsorted).
Defined.

(** ** Fusing stages over a [std::vector] *)

Lemma filter_filter_andb {T : Type} (p q : T → bool) (l : list T) :
  List.filter q (List.filter p l) = List.filter (fun x => p x && q x) l.
Proof.
  induction l as [|x l IH]; simpl; [done|].
  destruct (p x); simpl; [|done]. destruct (q x); by rewrite IH.
Qed.

Lemma filter_fmap_swap {T R : Type} (f : T → R) (p : R → bool) (l : list T) :
  List.filter p (f <$> l) = f <$> List.filter (fun x => p (f x)) l.
Proof.
  induction l as [|x l IH]; [done|].
  rewrite fmap_cons. cbn [List.filter].
  destruct (p (f x)); [rewrite fmap_cons|]; by rewrite IH.
Qed.

Section vector_fusion.
Context {T : Type}.
Implicit Types s : Stream (vector T).

(** X14. Over a [std::vector], two filters in a row give the stream that
    one filter with the conjunction gives, and two maps in a row the stream
    that one map with the composition gives. *)
Theorem filter_filter_map_map {R Q : Type}
  (p q : T → bool) (f : T → R) (g : R → Q) s :
  valid s →
  (kept ← filter p s; filter q kept) = filter (fun x => p x && q x) s ∧
  (mapped ← map f s; map g mapped) = map (fun x => g (f x)) s.
Proof.
  intros Hs. rewrite !filter_vector, !map_vector by done. simpl. split.
  - rewrite filter_vector by apply valid_Stream_from.
    rewrite range_Stream_from. simpl. by rewrite filter_filter_andb.
  - rewrite map_vector by apply valid_Stream_from.
    rewrite range_Stream_from. simpl. by rewrite <- list_fmap_compose.
Qed.

(** X15. Over a [std::vector], filtering the mapped values is mapping the
    elements whose image passes the filter. *)
Theorem filter_after_map {R : Type} (f : T → R) (p : R → bool) s :
  valid s →
  (mapped ← map f s; filter p mapped) =
  (kept ← filter (fun x => p (f x)) s; map f kept).
Proof.
  intros Hs. rewrite filter_vector, map_vector by done. simpl.
  rewrite filter_vector, map_vector by apply valid_Stream_from.
  rewrite !range_Stream_from. simpl. by rewrite filter_fmap_swap.
Qed.
End vector_fusion.

Lemma filter_filter_map_map_witness :
  valid sample_window ∧
  (filter Z.odd sample_window ≫=
     (fun kept : Stream (vector Z) => filter (Z.ltb 1) kept)) =
    filter (fun x => Z.odd x && (1 <? x)%Z) sample_window ∧
  (map Z.succ sample_window ≫=
     (fun mapped : Stream (RCollection (vector Z) Z) => map Z.even mapped)) =
    map (fun x => Z.even (Z.succ x)) sample_window.
Proof.
  split; [exact valid_sample_window|].
  exact (filter_filter_map_map Z.odd (Z.ltb 1) Z.succ Z.even sample_window
           valid_sample_window).
Defined.

Lemma filter_after_map_witness :
  valid sample_window ∧
  (map Z.succ sample_window ≫=
     (fun mapped : Stream (RCollection (vector Z) Z) => filter Z.even mapped)) =
  (filter (fun x => Z.even (Z.succ x)) sample_window ≫=
     (fun kept : Stream (vector Z) => map Z.succ kept)).
Proof.
  split; [exact valid_sample_window|].
  exact (filter_after_map Z.succ Z.even sample_window valid_sample_window).
Defined.

(** ** What the containers hold after a stage *)

#[global] Instance vector_CollectionLaws (T : Type) : CollectionLaws (vector T) T.
Proof.
  split; [done|]. intros collection value y. simpl.
  rewrite elem_of_app, list_elem_of_singleton. tauto.
Qed.

#[global] Instance unordered_set_CollectionLaws (T : Type) `{Countable T} :
  CollectionLaws (unordered_set T) T.
Proof.
  split; [apply elements_empty|]. intros collection value y. simpl.
  rewrite !elem_of_elements, elem_of_union, elem_of_singleton. tauto.
Qed.

#[global] Instance std_set_CollectionLaws (T : Type) `{StrictTotalLess T} :
  CollectionLaws (std_set T) T.
Proof.
  split; [done|]. intros collection value y. simpl. apply set_insert_elem.
Qed.

Section membership.
Context `{CollectionLaws Target V}.

Lemma elem_of_foldl_insert_if (p : V → bool) (l : list V) :
  ∀ (acc : Target) (y : V),
    y ∈ traversal
          (foldl (fun kept x => if p x then insert kept x else kept) acc l) ↔
    y ∈ traversal acc ∨ (y ∈ l ∧ p y = true).
Proof.
  induction l as [|x l IH]; intros acc y; simpl.
  - rewrite elem_of_nil. tauto.
  - rewrite IH, elem_of_cons. destruct (p x) eqn:Hx.
    + rewrite elem_of_traversal_insert. split; [|tauto].
      intros [[->|?]|[? ?]]; tauto.
    + split; [tauto|]. intros [?|[[->|?] ?]]; [tauto|congruence|tauto].
Qed.

Lemma elem_of_foldl_insert (l : list V) :
  ∀ (acc : Target) (y : V),
    y ∈ traversal (foldl insert acc l) ↔ y ∈ traversal acc ∨ y ∈ l.
Proof.
  induction l as [|x l IH]; intros acc y; simpl.
  - rewrite elem_of_nil. tauto.
  - rewrite IH, elem_of_traversal_insert, elem_of_cons. tauto.
Qed.
End membership.

Lemma elem_of_foldl_insert_fmap `{CollectionLaws Target R} {V : Type}
  (f : V → R) (l : list V) :
  ∀ (acc : Target) (y : R),
    y ∈ traversal (foldl (fun mapped x => insert mapped (f x)) acc l) ↔
    y ∈ traversal acc ∨ ∃ x : V, x ∈ l ∧ y = f x.
Proof.
  induction l as [|x l IH]; intros acc y; simpl.
  - setoid_rewrite elem_of_nil. split; [tauto|]. intros [?|(? & [] & _)]. done.
  - rewrite IH, elem_of_traversal_insert. setoid_rewrite elem_of_cons. split.
    + intros [[->|?]|(x' & ? & ->)]; [right|left|right]; eauto.
    + intros [?|(x' & [->|?] & ->)]; [tauto|tauto|]. right. eauto.
Qed.

Section stage_membership.
Context `{CollectionLaws TCollection V}.
Implicit Types s : Stream TCollection.

(** X16. Whatever the container kind, the stream that [filter(p)] returns
    holds the elements of the range that satisfy [p] and no others; [all(p)]
    is true of it, and it is empty exactly when [any(p)] is false of the
    stream it was taken from. *)
Theorem filter_keeps_what_matches (p : V → bool) s :
  valid s →
  ∃ kept : Stream TCollection,
    filter p s = Done kept ∧
    (∀ x : V, x ∈ range kept ↔ x ∈ range s ∧ p x = true) ∧
    all p kept = Done true ∧
    (range kept = [] ↔ any p s = Done false).
Proof.
  intros Hs. eexists. split; [by apply filter_valid|].
  assert (∀ x : V,
            x ∈ range (Stream_from
                         (foldl (fun kept x => if p x then insert kept x else kept)
                            (construct TCollection) (range s))) ↔
            x ∈ range s ∧ p x = true) as Helem.
  { intros x. rewrite range_Stream_from, elem_of_foldl_insert_if.
    rewrite traversal_construct, elem_of_nil. tauto. }
  split; [done|]. split.
  - rewrite all_valid by apply valid_Stream_from. f_equal.
    apply forallb_forall. intros x Hx.
    apply list_elem_of_In, Helem in Hx. tauto.
  - rewrite any_valid by done. split.
    + intros Hnil. f_equal. apply not_true_is_false. intros Hex.
      apply existsb_exists in Hex as (x & Hx & Hpx).
      apply list_elem_of_In in Hx.
      assert (x ∈ @nil V) as Hin by (rewrite <- Hnil; apply Helem; done).
      by apply elem_of_nil in Hin.
    + intros [= Hex]. apply elem_of_nil_inv. intros x Hx.
      apply Helem in Hx as [Hx Hpx].
      assert (existsb p (range s) = true) as Hyes.
      { apply existsb_exists. exists x. by rewrite <- list_elem_of_In. }
      congruence.
Qed.

(** X17. Whatever the kind of the target container, [collect] returns a
    container that holds the elements of the range and no others. *)
Theorem collect_holds_the_range `{CollectionLaws Target V} s :
  valid s →
  ∃ result : Target,
    collect Target s = Done result ∧
    ∀ x : V, x ∈ traversal result ↔ x ∈ range s.
Proof.
  intros Hs. eexists. split; [by apply collect_valid|].
  intros x. rewrite elem_of_foldl_insert, traversal_construct, elem_of_nil.
  tauto.
Qed.
End stage_membership.

(** X18. Whatever the container kind, the stream that [map(f)] returns
    holds the images under [f] of the elements of the range and no other
    values. *)
Theorem map_holds_the_images `{Collection TCollection V} {R : Type}
  `{WithValueType TCollection R} `{!CollectionLaws (RCollection TCollection R) R}
  (f : V → R) (s : Stream TCollection) :
  valid s →
  ∃ mapped : Stream (RCollection TCollection R),
    map f s = Done mapped ∧
    ∀ y : R, y ∈ range mapped ↔ ∃ x : V, x ∈ range s ∧ y = f x.
Proof.
  intros Hs. eexists. split; [by apply map_valid|].
  intros y. rewrite range_Stream_from, elem_of_foldl_insert_fmap.
  rewrite traversal_construct, elem_of_nil. tauto.
Qed.

Lemma valid_sample_unordered : valid sample_unordered.
Proof. unfold valid. simpl. lia. Defined.

Lemma filter_keeps_what_matches_witness :
  valid sample_unordered ∧
  ∃ kept : Stream (unordered_set Z),
    filter Z.odd sample_unordered = Done kept ∧
    (∀ x : Z, x ∈ range kept ↔ x ∈ range sample_unordered ∧ Z.odd x = true) ∧
    all Z.odd kept = Done true.
Proof.
  split; [exact valid_sample_unordered|].
  destruct (filter_keeps_what_matches Z.odd sample_unordered
              valid_sample_unordered) as (kept & Hfilter & Helem & Hall & _).
  exists kept. split; [exact Hfilter|]. split; [exact Helem | exact Hall].
Defined.

Lemma collect_holds_the_range_witness :
  valid sample_duplicates ∧
  ∃ result : std_set Z,
    collect (std_set Z) sample_duplicates = Done result ∧
    ∀ x : Z, x ∈ traversal result ↔ x ∈ range sample_duplicates.
Proof.
  assert (valid sample_duplicates) as Hs by (unfold valid; simpl; lia).
  split; [exact Hs|].
  exact (collect_holds_the_range (Target := std_set Z) sample_duplicates Hs).
Defined.

Lemma map_holds_the_images_witness :
  valid sample_unordered ∧
  ∃ mapped : Stream (unordered_set Z),
    map (fun x : Z => x mod 2)%Z sample_unordered = Done mapped ∧
    ∀ y : Z, y ∈ range mapped ↔
             ∃ x : Z, x ∈ range sample_unordered ∧ y = (x mod 2)%Z.
Proof.
  split; [exact valid_sample_unordered|].
  exact (map_holds_the_images (fun x : Z => x mod 2)%Z sample_unordered
           valid_sample_unordered).
Defined.

(** ** Set-like containers *)

(** X19. Mapping a stream over a [std::set] gives a stream over a
    [std::set] of the images: they come in key order, each once, so there
    can be fewer of them than elements in the range, never more. *)
Theorem map_over_std_set {T R : Type} `{Less T} `{StrictTotalLess R}
  (f : T → R) (s : Stream (std_set T)) :
  valid s →
  ∃ items : list R,
    map f s = Done (Stream_from (StdSet items)) ∧
    in_key_order items ∧ NoDup items ∧
    length items ≤ length (range s) ∧
    ∀ y : R, y ∈ items ↔ ∃ x : T, x ∈ range s ∧ y = f x.
Proof.
  intros Hs. destruct (map_std_set f s Hs) as (items & Hmap & Hsorted & Helem).
  exists items. pose proof (key_order_NoDup items Hsorted) as Hnodup.
  split_and!; try done.
  rewrite <- (length_fmap f (range s)). apply submseteq_length.
  apply NoDup_submseteq; [done|]. intros y Hy.
  apply Helem in Hy as (x & Hx & ->). by apply list_elem_of_fmap_2.
Qed.

(** X20. What [collect] builds in a [std::set] or a [std::unordered_set]
    depends only on which values occur in the range, not on their order,
    on how often they are repeated, or on the kind of container the stream
    runs over. *)
Theorem collect_into_sets_ignores_order_and_repetition
  {V TCollection TCollection' : Type} `{Countable V} `{StrictTotalLess V}
  `{Collection TCollection V} `{Collection TCollection' V}
  (s : Stream TCollection) (s' : Stream TCollection') :
  valid s → valid s' →
  (∀ x : V, x ∈ range s ↔ x ∈ range s') →
  collect (std_set V) s = collect (std_set V) s' ∧
  collect (unordered_set V) s = collect (unordered_set V) s'.
Proof.
  intros Hs Hs' Hsame. split.
  - destruct (collect_std_set s Hs) as (items & -> & Hsorted & _ & Helem).
    destruct (collect_std_set s' Hs') as (items' & -> & Hsorted' & _ & Helem').
    do 2 f_equal. apply key_order_unique; [done..|].
    intros x. by rewrite Helem, Helem'.
  - rewrite !collect_unordered_set by done. f_equal.
    apply set_eq. intros x. by rewrite !elem_of_list_to_set.
Qed.

(** X21. Inserting into a [std::set] through its [Collection] entry keeps
    the key order and adds at most one element; inserting a value that is
    already there, or the same value twice, changes nothing; and the order
    of two insertions does not matter. *)
Theorem std_set_insert_laws {T : Type} `{StrictTotalLess T}
  (collection : std_set T) (x y : T) :
  in_key_order (traversal collection) →
  in_key_order (traversal (insert collection x)) ∧
  length (traversal (insert collection x)) ≤ S (length (traversal collection)) ∧
  (x ∈ traversal collection → insert collection x = collection) ∧
  insert (insert collection x) x = insert collection x ∧
  insert (insert collection x) y = insert (insert collection y) x.
Proof.
  destruct collection as [items]. simpl. intros Hsorted.
  pose proof (set_insert_key_order x items Hsorted) as Hx.
  pose proof (set_insert_key_order y items Hsorted) as Hy.
  split_and!.
  - done.
  - clear. induction items as [|z items IH]; simpl; [lia|].
    destruct (less x z); [simpl; lia|]. destruct (less z x); simpl; lia.
  - intros Hin. f_equal. apply key_order_unique; [done..|].
    intros z. rewrite set_insert_elem. split; [|tauto]. by intros [->|?].
  - f_equal. apply key_order_unique; [by apply set_insert_key_order|done|].
    intros z. rewrite !set_insert_elem. tauto.
  - f_equal. apply key_order_unique; [by apply set_insert_key_order..|].
    intros z. rewrite !set_insert_elem. tauto.
Qed.

Lemma map_over_std_set_witness :
  valid sample_set ∧
  ∃ items : list Z,
    map (fun x : Z => x mod 2)%Z sample_set = Done (Stream_from (StdSet items)) ∧
    in_key_order items ∧ length items ≤ length (range sample_set).
Proof.
  split; [exact valid_sample_set|].
  destruct (map_over_std_set (fun x : Z => x mod 2)%Z sample_set valid_sample_set)
    as (items & Hmap & Hsorted & _ & Hlen & _).
  exists items. split; [exact Hmap|]. split; [exact Hsorted | exact Hlen].
Defined.

Lemma collect_into_sets_ignores_order_and_repetition_witness :
  valid sample_duplicates ∧ valid sample_set ∧
  (∀ x : Z, x ∈ range sample_duplicates ↔ x ∈ range sample_set) ∧
  collect (std_set Z) sample_duplicates = collect (std_set Z) sample_set ∧
  collect (unordered_set Z) sample_duplicates =
  collect (unordered_set Z) sample_set.
Proof.
  assert (valid sample_duplicates) as Hs by (unfold valid; simpl; lia).
  assert (∀ x : Z, x ∈ range sample_duplicates ↔ x ∈ range sample_set) as Hsame.
  { intros x. change (range sample_duplicates) with [2; 1; 2; 3; 1]%Z.
    change (range sample_set) with [1; 2; 3]%Z.
    rewrite !elem_of_cons, !elem_of_nil. tauto. }
  split; [exact Hs|]. split; [exact valid_sample_set|]. split; [exact Hsame|].
  exact (collect_into_sets_ignores_order_and_repetition
           sample_duplicates sample_set Hs valid_sample_set Hsame).
Defined.

Lemma std_set_insert_laws_witness :
  in_key_order (traversal (StdSet [1; 3; 5]%Z)) ∧
  insert (insert (StdSet [1; 3; 5]%Z) 4%Z) 2%Z =
  insert (insert (StdSet [1; 3; 5]%Z) 2%Z) 4%Z.
Proof.
  assert (in_key_order (traversal (StdSet [1; 3; 5]%Z))) as Hsorted.
  { unfold in_key_order. simpl. repeat constructor. }
  split; [exact Hsorted|].
  destruct (std_set_insert_laws (StdSet [1; 3; 5]%Z) 4%Z 2%Z Hsorted)
    as (_ & _ & _ & _ & Hswap).
  exact Hswap.
Defined.
